(** * Pollution dashboard: the data pipeline of [interactive.py]

    The script loads a spreadsheet into a pandas frame and pushes it through
    a fixed sequence of library calls: a missing-value strategy on the three
    pollutant columns, [drop_duplicates], group means per city, a ranking,
    a correlation matrix and an IQR outlier split.

    Numbers are rationals ([Q]); a missing cell (NaN) is [None].  The first
    model of each computation is in exact arithmetic; the percentiles, the
    outlier bounds and the group means have a second model, [Rounded], in
    which every floating-point operation rounds, with [binary64] as the
    rounding of the machine.  The three pollutant columns carry a float dtype and the columns
    [city] and [pollutant_id] an object dtype, as [read_excel] infers them for
    the data the dashboard is written for. *)

From Stdlib Require Import String Ascii OrderedTypeEx.
From Stdlib Require Import Reals Lra R_sqrt Qreals.
From Stdlib Require Import List Bool Arith ZArith QArith Qround Lia Lqa.
From Stdlib Require Import Permutation Sorted.
Import ListNotations.

Local Open Scope Q_scope.

(** ** Series: columns of optional values *)

Module Series.

Definition isna {A} (x : option A) : bool :=
  match x with None => true | Some _ => false end.

Definition notna {A} (x : option A) : bool := negb (isna x).

(** [Series.dropna]: the present values, in order. *)
Fixpoint dropna {A} (s : list (option A)) : list A :=
  match s with
  | [] => []
  | Some v :: t => v :: dropna t
  | None :: t => dropna t
  end.

(** [Series.fillna(v)]: a NaN fill value leaves the series as it is. *)
Definition fillna (v : option Q) (x : option Q) : option Q :=
  match x with
  | Some _ => x
  | None => v
  end.

Definition Qsum (xs : list Q) : Q := fold_right Qplus 0 xs.

Definition Qlen (xs : list Q) : Q := inject_Z (Z.of_nat (length xs)).

(** [Series.mean()], [skipna=True]: NaN on a series without values. *)
Definition mean (s : list (option Q)) : option Q :=
  match dropna s with
  | [] => None
  | xs => Some (Qred (Qsum xs / Qlen xs))
  end.

(** Ascending sort of the values (insertion into a sorted prefix). *)
Fixpoint insert (x : Q) (l : list Q) : list Q :=
  match l with
  | [] => [x]
  | y :: t => if Qle_bool x y then x :: l else y :: insert x t
  end.

Fixpoint sort (l : list Q) : list Q :=
  match l with
  | [] => []
  | x :: t => insert x (sort t)
  end.

(** [Series.median()], [skipna=True]: the middle value of the sorted
    values, or the mean of the two middle values. *)
Definition median (s : list (option Q)) : option Q :=
  let xs := sort (dropna s) in
  let n := length xs in
  match n with
  | O => None
  | _ =>
      if Nat.even n
      then Some (Qred ((nth (n / 2 - 1) xs 0 + nth (n / 2) xs 0) / 2))
      else Some (nth (n / 2) xs 0)
  end.

(** Number of cells of [xs] that hold the number [v]. *)
Definition count (v : Q) (xs : list Q) : nat :=
  length (filter (Qeq_bool v) xs).

(** The distinct values, each at its first occurrence. *)
Fixpoint unique (xs : list Q) : list Q :=
  match xs with
  | [] => []
  | x :: t => x :: filter (fun y => negb (Qeq_bool x y)) (unique t)
  end.

Definition value_counts (xs : list Q) : list (Q * nat) :=
  map (fun v => (v, count v xs)) (unique xs).

Definition max_count (vc : list (Q * nat)) : nat :=
  fold_right Nat.max 0%nat (map snd vc).

(** [Series.mode()], [dropna=True]: every value whose count is the
    largest count, sorted ascending. *)
Definition mode (s : list (option Q)) : list Q :=
  let vc := value_counts (dropna s) in
  sort (map fst (filter (fun p => Nat.eqb (snd p) (max_count vc)) vc)).

End Series.

(** ** Exceptions *)

Inductive exn : Type :=
| KeyError
| IndexError.

Inductive result (A : Type) : Type :=
| Ok (a : A)
| Raise (e : exn).

Arguments Ok {A} a.
Arguments Raise {A} e.

Definition bind {A B} (m : result A) (k : A -> result B) : result B :=
  match m with
  | Ok a => k a
  | Raise e => Raise e
  end.

Notation "x <- m ;; k" := (bind m (fun x => k))
  (at level 61, m at next level, right associativity).

(** [s[0]] on a series with the default index: the label 0 is absent from
    an empty series. *)
Definition getitem0 (s : list Q) : result Q :=
  match s with
  | [] => Raise KeyError
  | v :: _ => Ok v
  end.

(** ** Frames *)

Inductive value : Type :=
| VNum (x : Q)
| VStr (s : string).

Record row : Type := mkRow {
  city : option string;
  pollutant_id : option string;
  pollutant_min : option Q;
  pollutant_max : option Q;
  pollutant_avg : option Q;
  extra : list (option value)
}.

Definition DataFrame := list row.

Inductive num_col : Type := Cmin | Cmax | Cavg.

(** [num_cols = ['pollutant_min', 'pollutant_max', 'pollutant_avg']] *)
Definition num_cols : list num_col := [Cmin; Cmax; Cavg].

Definition get (c : num_col) (r : row) : option Q :=
  match c with
  | Cmin => pollutant_min r
  | Cmax => pollutant_max r
  | Cavg => pollutant_avg r
  end.

Definition set (c : num_col) (v : option Q) (r : row) : row :=
  match c with
  | Cmin => mkRow (city r) (pollutant_id r) v (pollutant_max r) (pollutant_avg r) (extra r)
  | Cmax => mkRow (city r) (pollutant_id r) (pollutant_min r) v (pollutant_avg r) (extra r)
  | Cavg => mkRow (city r) (pollutant_id r) (pollutant_min r) (pollutant_max r) v (extra r)
  end.

(** [data[col]] *)
Definition column (c : num_col) (data : DataFrame) : list (option Q) :=
  map (get c) data.

(** [data[col] = data[col].fillna(v)] *)
Definition fill_column (c : num_col) (v : option Q) (data : DataFrame) : DataFrame :=
  map (fun r => set c (Series.fillna v (get c r)) r) data.

(** A row has a missing cell in some column of the frame. *)
Definition row_hasna (r : row) : bool :=
  Series.isna (city r) || Series.isna (pollutant_id r)
  || Series.isna (pollutant_min r) || Series.isna (pollutant_max r)
  || Series.isna (pollutant_avg r) || existsb Series.isna (extra r).

(** [data.dropna()]: [how='any'] over every column. *)
Definition dropna (data : DataFrame) : DataFrame :=
  filter (fun r => negb (row_hasna r)) data.

(** ** Data cleaning (the [method] select box) *)

Inductive method : Type := FillMean | FillMedian | FillMode | DropRows.

(** One pass of [for col in num_cols: ...] over the frame. *)
Fixpoint for_cols (body : num_col -> DataFrame -> result DataFrame)
    (cols : list num_col) (data : DataFrame) : result DataFrame :=
  match cols with
  | [] => Ok data
  | col :: rest => data' <- body col data ;; for_cols body rest data'
  end.

Definition Clean (m : method) (data : DataFrame) : result DataFrame :=
  match m with
  | FillMean =>
      for_cols (fun col d => Ok (fill_column col (Series.mean (column col d)) d))
               num_cols data
  | FillMedian =>
      for_cols (fun col d => Ok (fill_column col (Series.median (column col d)) d))
               num_cols data
  | FillMode =>
      for_cols (fun col d =>
                  m0 <- getitem0 (Series.mode (column col d)) ;;
                  Ok (fill_column col (Some m0) d))
               num_cols data
  | DropRows => Ok (dropna data)
  end.

(** ** Duplicates *)

Definition opt_eqb {A} (eqb : A -> A -> bool) (x y : option A) : bool :=
  match x, y with
  | Some a, Some b => eqb a b
  | None, None => true
  | _, _ => false
  end.

Definition value_eqb (x y : value) : bool :=
  match x, y with
  | VNum a, VNum b => Qeq_bool a b
  | VStr a, VStr b => String.eqb a b
  | _, _ => false
  end.

Fixpoint list_eqb {A} (eqb : A -> A -> bool) (l1 l2 : list A) : bool :=
  match l1, l2 with
  | [], [] => true
  | a :: t1, b :: t2 => eqb a b && list_eqb eqb t1 t2
  | _, _ => false
  end.

(** Two rows hold the same cells in every column; as in [duplicated], a
    missing cell matches a missing cell. *)
Definition row_eqb (r1 r2 : row) : bool :=
  opt_eqb String.eqb (city r1) (city r2)
  && opt_eqb String.eqb (pollutant_id r1) (pollutant_id r2)
  && opt_eqb Qeq_bool (pollutant_min r1) (pollutant_min r2)
  && opt_eqb Qeq_bool (pollutant_max r1) (pollutant_max r2)
  && opt_eqb Qeq_bool (pollutant_avg r1) (pollutant_avg r2)
  && list_eqb (opt_eqb value_eqb) (extra r1) (extra r2).

(** [data.duplicated()], [keep='first']: the mask of the rows already seen
    above. *)
Fixpoint duplicated_from (seen : list row) (data : DataFrame) : list bool :=
  match data with
  | [] => []
  | r :: t => existsb (row_eqb r) seen :: duplicated_from (r :: seen) t
  end.

(** The rows kept below a given list of rows already seen. *)
Definition kept_from (seen : list row) (data : DataFrame) : DataFrame :=
  map fst (filter (fun p => negb (snd p)) (combine data (duplicated_from seen data))).

Definition duplicated (data : DataFrame) : list bool := duplicated_from [] data.

(** [data.drop_duplicates(inplace=True)] *)
Definition drop_duplicates (data : DataFrame) : DataFrame :=
  kept_from [] data.

Definition Deduplicate (data : DataFrame) : DataFrame := drop_duplicates data.

(** The wording of the specification: a row goes exactly when an earlier row
    is identical to it. *)
Definition Deduplicate_spec (data : DataFrame) : DataFrame :=
  map snd
    (filter (fun p => negb (existsb (row_eqb (snd p)) (firstn (fst p) data)))
            (combine (seq 0 (length data)) data)).

(** ** Group means *)

(** A series indexed by city. *)
Definition view := list (string * option Q).

Fixpoint insert_key (k : string) (l : list string) : list string :=
  match l with
  | [] => [k]
  | h :: t =>
      match String.compare k h with
      | Lt => k :: l
      | Eq => l
      | Gt => h :: insert_key k t
      end
  end.

(** The group labels of [groupby('city')]: [sort=True], [dropna=True]. *)
Definition group_keys (data : DataFrame) : list string :=
  fold_right insert_key [] (Series.dropna (map city data)).

Definition in_group (k : string) (r : row) : bool :=
  opt_eqb String.eqb (city r) (Some k).

(** [data.groupby('city')['pollutant_avg'].mean()] *)
Definition GroupAggregate (data : DataFrame) : view :=
  map (fun k => (k, Series.mean (column Cavg (filter (in_group k) data))))
      (group_keys data).

(** ** Ranking *)

Definition Qltb (a b : Q) : bool := negb (Qle_bool b a).

(** What a stable [argsort] returns on [xs]: the positions of [xs],
    ascending by value, equal values in their order of appearance. *)
Definition stable_argsort_of (xs : list Q) (p : list nat) : Prop :=
  Permutation p (seq 0 (length xs)) /\
  StronglySorted
    (fun a b => nth a xs 0 < nth b xs 0 \/ (nth a xs 0 == nth b xs 0 /\ (a < b)%nat))
    p.

(** What any [argsort] returns on [xs]: the positions, ascending by value. *)
Definition argsort_of (xs : list Q) (p : list nat) : Prop :=
  Permutation p (seq 0 (length xs)) /\
  StronglySorted (fun a b => nth a xs 0 <= nth b xs 0) p.

(** The positions of the present and of the missing values of a series. *)
Definition present_idx (items : list (option Q)) : list nat :=
  filter (fun i => Series.notna (nth i items None)) (seq 0 (length items)).

Definition absent_idx (items : list (option Q)) : list nat :=
  filter (fun i => Series.isna (nth i items None)) (seq 0 (length items)).

(** [nargsort(items, ascending=False, na_position='last')] of pandas, over
    the [argsort] of the array library: the present values are reversed,
    sorted ascending, the positions reversed again, and the positions of the
    missing values appended. *)
Definition nargsort (argsort : list Q -> list nat) (items : list (option Q))
  : list nat :=
  let non_nans := rev (Series.dropna items) in
  let non_nan_idx := rev (present_idx items) in
  let nan_idx := absent_idx items in
  let indexer := map (fun j => nth j non_nan_idx 0%nat) (argsort non_nans) in
  rev indexer ++ nan_idx.

(** [s.sort_values(ascending=False)] *)
Definition sort_values (argsort : list Q -> list nat) (s : view) : view :=
  map (fun i => nth i s (EmptyString, None)) (nargsort argsort (map snd s)).

(** [s.head(n)], that is [s.iloc[:n]]: a negative [n] counts from the end. *)
Definition head {A} (n : Z) (s : list A) : list A :=
  if (0 <=? n)%Z then firstn (Z.to_nat n) s
  else firstn (length s - Z.to_nat (- n)) s.

Definition city_avg (argsort : list Q -> list nat) (data : DataFrame) : view :=
  sort_values argsort (GroupAggregate data).

Definition TopN (argsort : list Q -> list nat) (v : view) (n : Z) : view :=
  head n (sort_values argsort v).

Definition top10 (argsort : list Q -> list nat) (data : DataFrame) : view :=
  TopN argsort (GroupAggregate data) 10.

(** An instance of a stable [argsort]: insertion of the positions, from the
    last to the first, before the first strictly larger value. *)
Fixpoint insert_pos (xs : list Q) (i : nat) (p : list nat) : list nat :=
  match p with
  | [] => [i]
  | j :: t =>
      if Qle_bool (nth i xs 0) (nth j xs 0) then i :: p
      else j :: insert_pos xs i t
  end.

Definition insertion_argsort (xs : list Q) : list nat :=
  fold_right (insert_pos xs) [] (seq 0 (length xs)).

(** An [argsort] that is not stable: equal values come out last first. *)
Fixpoint insert_pos_late (xs : list Q) (i : nat) (p : list nat) : list nat :=
  match p with
  | [] => [i]
  | j :: t =>
      if Qltb (nth i xs 0) (nth j xs 0) then i :: p
      else j :: insert_pos_late xs i t
  end.

Definition unstable_argsort (xs : list Q) : list nat :=
  fold_right (insert_pos_late xs) [] (seq 0 (length xs)).

(** The order of a ranking: larger means first, missing means last, and
    among equal means the smaller city name first. *)
Definition ranks_before (a b : string * option Q) : Prop :=
  match snd a, snd b with
  | Some x, Some y => y < x \/ (x == y /\ String_as_OT.lt (fst a) (fst b))
  | Some _, None => True
  | None, Some _ => False
  | None, None => String_as_OT.lt (fst a) (fst b)
  end.

(** ** Outliers (IQR method) *)

(** [np.percentile(a, q)], method ['linear']: the value at the virtual
    index [(n - 1) * q / 100] of the sorted array, interpolated between its
    two neighbours.  A missing value in [a] makes the result NaN, and an
    empty [a] has no percentile. *)
Definition percentile (a : list (option Q)) (q : Q) : option Q :=
  if existsb Series.isna a then None
  else
    let arr := Series.sort (Series.dropna a) in
    match arr with
    | [] => None
    | _ =>
        let n := Z.of_nat (length arr) in
        let virtual_index := (q / 100) * (inject_Z n - 1) in
        let previous := Qfloor virtual_index in
        let next := Z.min (previous + 1) (n - 1) in
        let gamma := virtual_index - inject_Z previous in
        let lo := nth (Z.to_nat previous) arr 0 in
        let hi := nth (Z.to_nat next) arr 0 in
        Some (Qred (lo + (hi - lo) * gamma))
    end.

(** Arithmetic and comparisons with NaN: an operation on NaN is NaN and
    every comparison with NaN is false. *)
Definition lift2 (f : Q -> Q -> Q) (x y : option Q) : option Q :=
  match x, y with
  | Some a, Some b => Some (f a b)
  | _, _ => None
  end.

Definition cmp2 (f : Q -> Q -> bool) (x y : option Q) : bool :=
  match x, y with
  | Some a, Some b => f a b
  | _, _ => false
  end.

Definition Q1 (data : DataFrame) : option Q := percentile (column Cavg data) 25.
Definition Q3 (data : DataFrame) : option Q := percentile (column Cavg data) 75.
Definition IQR (data : DataFrame) : option Q := lift2 Qminus (Q3 data) (Q1 data).

Definition lower (data : DataFrame) : option Q :=
  lift2 Qminus (Q1 data) (lift2 Qmult (Some (3 # 2)) (IQR data)).

Definition upper (data : DataFrame) : option Q :=
  lift2 Qplus (Q3 data) (lift2 Qmult (Some (3 # 2)) (IQR data)).

(** [data[(data['pollutant_avg'] < lower) | (data['pollutant_avg'] > upper)]] *)
Definition outliers (data : DataFrame) : DataFrame :=
  filter (fun r => cmp2 Qltb (pollutant_avg r) (lower data)
                   || cmp2 Qltb (upper data) (pollutant_avg r)) data.

(** [data[(data['pollutant_avg'] >= lower) & (data['pollutant_avg'] <= upper)]] *)
Definition clean_data (data : DataFrame) : DataFrame :=
  filter (fun r => cmp2 Qle_bool (lower data) (pollutant_avg r)
                   && cmp2 Qle_bool (pollutant_avg r) (upper data)) data.

Definition DetectOutliers (data : DataFrame)
  : (option Q * option Q) * DataFrame * DataFrame :=
  ((lower data, upper data), outliers data, clean_data data).

(** The wording of the specification for a percentile: on the ascending
    values [arr] with [n] entries, [k = (n - 1) * p / 100] rounded down and
    [f] the hundredths left over, the value [arr[k] + f * (arr[k+1] - arr[k])]. *)
Definition linear_percentile_spec (arr : list Q) (p : Z) : Q :=
  let n := Z.of_nat (length arr) in
  let k := ((n - 1) * p / 100)%Z in
  let f := (((n - 1) * p) mod 100)%Z # 100 in
  let lo := nth (Z.to_nat k) arr 0 in
  let hi := nth (Z.to_nat (Z.min (k + 1) (n - 1))) arr 0 in
  lo + f * (hi - lo).

(** ** Correlation *)

(** The observations of a pair of columns: the rows in which both hold a
    value. *)
Fixpoint complete_pairs (x y : list (option Q)) : list (Q * Q) :=
  match x, y with
  | Some a :: tx, Some b :: ty => (a, b) :: complete_pairs tx ty
  | _ :: tx, _ :: ty => complete_pairs tx ty
  | _, _ => []
  end.

Definition Qmean (xs : list Q) : Q := Series.Qsum xs / Series.Qlen xs.

(** Sum of the products of the deviations from the means. *)
Definition sum_dev (xs ys : list Q) : Q :=
  Series.Qsum (map (fun p => (fst p - Qmean xs) * (snd p - Qmean ys)) (combine xs ys)).

(** One entry of [DataFrame.corr()], [method='pearson'], [min_periods=1]:
    the covariance sum over the root of the product of the two sums of
    squares, and NaN when that divisor is zero.  The divisor is zero exactly
    when the product under the root is. *)
Definition pearson (x y : list (option Q)) : option R :=
  let obs := complete_pairs x y in
  let vx := map fst obs in
  let vy := map snd obs in
  match obs with
  | [] => None
  | _ =>
      let ssqdx := sum_dev vx vx in
      let ssqdy := sum_dev vy vy in
      let covxy := sum_dev vx vy in
      if Qeq_bool (ssqdx * ssqdy) 0 then None
      else Some (Q2R covxy / sqrt (Q2R (ssqdx * ssqdy)))%R
  end.

Definition corr_entry (data : DataFrame) (ci cj : num_col) : option R :=
  pearson (column ci data) (column cj data).

(** [corr = data[num_cols].corr()] *)
Definition CorrelationMatrix (data : DataFrame) : list (list (option R)) :=
  map (fun ci => map (fun cj => corr_entry data ci cj) num_cols) num_cols.

(** A column varies when two of its values differ. *)
Definition varies (s : list (option Q)) : Prop :=
  exists u v, In (Some u) s /\ In (Some v) s /\ ~ u == v.

(** A column is constant when all of its values agree (a column without
    values also). *)
Definition constant (s : list (option Q)) : Prop :=
  forall u v, In (Some u) s -> In (Some v) s -> u == v.

(** ** Statements about cleaning, and the frames they are tried on *)

(** A row has a missing cell in one of the three pollutant columns. *)
Definition num_hasna (r : row) : bool :=
  Series.isna (pollutant_min r) || Series.isna (pollutant_max r)
  || Series.isna (pollutant_avg r).

(** No cell of the row is missing, column by column. *)
Definition complete (r : row) : Prop :=
  city r <> None /\ pollutant_id r <> None /\ pollutant_min r <> None /\
  pollutant_max r <> None /\ pollutant_avg r <> None /\ ~ In None (extra r).

(** Dropping rows looks at the three pollutant columns only. *)
Definition drop_rows_on_num_cols (data : DataFrame) : Prop :=
  Clean DropRows data = Ok (filter (fun r => negb (num_hasna r)) data).

Definition has_value (s : list (option Q)) : Prop := exists v, In (Some v) s.

Definition no_missing (c : num_col) (data : DataFrame) : Prop :=
  forall r, In r data -> get c r <> None.

(** A fill strategy leaves no missing pollutant value, on every frame. *)
Definition fill_leaves_no_missing (m : method) (data : DataFrame) : Prop :=
  forall d', Clean m data = Ok d' -> forall c, no_missing c d'.

(** A fill strategy fails on a frame with a pollutant column without
    values. *)
Definition fails_on_empty_column (m : method) (data : DataFrame) : Prop :=
  (exists c, ~ has_value (column c data)) -> exists e, Clean m data = Raise e.

(** The row after a fill: each pollutant cell is kept when present and
    takes the statistic of its column when missing. *)
Definition fill_row (stat : num_col -> option Q) (r : row) : row :=
  mkRow (city r) (pollutant_id r)
        (Series.fillna (stat Cmin) (pollutant_min r))
        (Series.fillna (stat Cmax) (pollutant_max r))
        (Series.fillna (stat Cavg) (pollutant_avg r))
        (extra r).

(** [m] is the most frequent value of [xs], the smallest one among the
    values that are as frequent. *)
Definition first_mode (xs : list Q) (m : Q) : Prop :=
  In m xs /\
  (forall v, In v xs -> (Series.count v xs <= Series.count m xs)%nat) /\
  (forall v, In v xs -> Series.count v xs = Series.count m xs -> m <= v).

Definition PM10 : option string := Some "PM10"%string.

(** A reading without a city, its three pollutant values present. *)
Definition frame_no_city : DataFrame :=
  [ mkRow None PM10 (Some 1) (Some 2) (Some 3) [] ].

(** A frame whose [pollutant_min] column holds no value. *)
Definition frame_empty_min : DataFrame :=
  [ mkRow (Some "Delhi"%string) PM10 None (Some 2) (Some 3) [];
    mkRow (Some "Pune"%string) PM10 None (Some 4) None [] ].

(** A frame with gaps in every pollutant column and a value in each. *)
Definition frame_gaps : DataFrame :=
  [ mkRow (Some "Delhi"%string) PM10 (Some 1) (Some 9) None [];
    mkRow (Some "Pune"%string) PM10 None (Some 4) (Some 2) [];
    mkRow (Some "Agra"%string) PM10 (Some 3) None (Some 7) [Some (VStr "x")];
    mkRow (Some "Agra"%string) PM10 (Some 3) (Some 4) (Some 2) [None];
    mkRow (Some "Kochi"%string) PM10 (Some 1) (Some 9) (Some 7) [] ].

(** ** Statements about the ranking, and the frames they are tried on *)

(** The index of a grouped series: the labels in ascending order. *)
Definition keys_ascending (v : view) : Prop :=
  StronglySorted String_as_OT.lt (map fst v).

Definition reading (c : string) (a : option Q) : row :=
  mkRow (Some c) PM10 a a a [].

(** Agra and Delhi share the mean 15; Surat has no value. *)
Definition frame_cities : DataFrame :=
  [ reading "Delhi" (Some 10); reading "Pune" (Some 5); reading "Agra" (Some 15);
    reading "Delhi" (Some 20); reading "Surat" None; reading "Delhi" None ].

(** ** Statements about outliers and correlation, and their frames *)

(** The readings 1, 2, 3, 4, 5 and 100 of one city. *)
Definition frame_readings : DataFrame :=
  map (fun x => reading "Delhi" (Some x)) [1; 2; 3; 4; 5; 100].

(** Two identical columns have the coefficient 1, on every frame. *)
Definition identical_columns_correlate (data : DataFrame) : Prop :=
  forall ci cj, ci <> cj -> column ci data = column cj data ->
                corr_entry data ci cj = Some 1%R.

(** Two cities with the same reading: the three columns are identical, and
    constant. *)
Definition frame_constant : DataFrame :=
  [ reading "Delhi" (Some 5); reading "Pune" (Some 5) ].

(** Two readings that differ: the three columns are identical and vary. *)
Definition frame_varying : DataFrame :=
  [ reading "Delhi" (Some 5); reading "Pune" (Some 8); reading "Agra" None ].

(** ** The session: cleaning, then duplicates *)

(** The frame every tab works on: the cleaning chosen in the select box,
    then [data.drop_duplicates(inplace=True)]. *)
Definition prepare (m : method) (data : DataFrame) : result DataFrame :=
  d <- Clean m data ;; Ok (drop_duplicates d).

(** [v] lies between two values of the series. *)
Definition within (s : list (option Q)) (v : Q) : Prop :=
  exists a b, In (Some a) s /\ In (Some b) s /\ a <= v /\ v <= b.

(** Row by row, a frame differs from another one only in pollutant cells
    that were missing. *)
Definition only_fills (r r' : row) : Prop :=
  city r' = city r /\ pollutant_id r' = pollutant_id r /\ extra r' = extra r /\
  forall c v, get c r = Some v -> get c r' = Some v.

(** ** The dataset overview *)

(** [data[col].isna().sum()] for a column read off the rows by [col]. *)
Definition missing_in {A} (col : row -> option A) (data : DataFrame) : nat :=
  length (filter (fun r => Series.isna (col r)) data).

(** The cell of a row in the [j]-th of the further columns. *)
Definition extra_cell (j : nat) (r : row) : option value := nth j (extra r) None.

(** ** Pollution types *)

(** [Series.unique()]: the values in the order of their first appearance. *)
Fixpoint unique_by {A} (eqb : A -> A -> bool) (l : list A) : list A :=
  match l with
  | [] => []
  | x :: t => x :: filter (fun y => negb (eqb x y)) (unique_by eqb t)
  end.

(** The labels of [value_counts()] with their counts, before the sort:
    [dropna=True], one entry per label. *)
Definition count_table (data : DataFrame) : list (string * nat) :=
  let ids := Series.dropna (map pollutant_id data) in
  map (fun k => (k, length (filter (String.eqb k) ids))) (unique_by String.eqb ids).

(** The counts as the values the sort works on. *)
Definition count_items (data : DataFrame) : list (option Q) :=
  map (fun p => Some (inject_Z (Z.of_nat (snd p)))) (count_table data).

(** [type_counts = data['pollutant_id'].value_counts()]: the table sorted
    by descending count. *)
Definition type_counts (argsort : list Q -> list nat) (data : DataFrame)
  : list (string * nat) :=
  map (fun i => nth i (count_table data) (EmptyString, 0%nat))
      (nargsort argsort (count_items data)).

(** The order [nargsort] leaves the positions in: larger values first,
    missing values last in their order of appearance. *)
Definition descending_at (items : list (option Q)) (i j : nat) : Prop :=
  match nth i items None, nth j items None with
  | Some x, Some y => y <= x
  | Some _, None => True
  | None, Some _ => False
  | None, None => (i < j)%nat
  end.

(** Readings of three pollutant types, one of them without a type. *)
Definition typed (c : string) (p : option string) (a : option Q) : row :=
  mkRow (Some c) p a a a [].

Definition frame_types : DataFrame :=
  [ typed "Delhi" (Some "PM10"%string) (Some 10);
    typed "Delhi" (Some "NO2"%string) (Some 4);
    typed "Pune" None (Some 6);
    typed "Pune" (Some "PM10"%string) (Some 8);
    typed "Agra" (Some "SO2"%string) (Some 3);
    typed "Agra" (Some "PM10"%string) (Some 12) ].

(** ** Pollution by type in the top 20 cities *)

(** [top_cities]: the index of the first 20 entries of the ranking. *)
Definition top_cities (argsort : list Q -> list nat) (data : DataFrame) : list string :=
  map fst (head 20 (sort_values argsort (GroupAggregate data))).

(** [s.isin(values)]: a missing cell is in no list of labels. *)
Definition isin (x : option string) (values : list string) : bool :=
  match x with
  | Some c => existsb (String.eqb c) values
  | None => false
  end.

(** [top_data = data[data['city'].isin(top_cities)]] *)
Definition top_data (argsort : list Q -> list nat) (data : DataFrame) : DataFrame :=
  filter (fun r => isin (city r) (top_cities argsort data)) data.

(** [top_data['pollutant_id'] == pollutant]: a comparison with a missing
    value is false. *)
Definition eq_label (x y : option string) : bool :=
  match x, y with
  | Some a, Some b => String.eqb a b
  | _, _ => false
  end.

(** The loop over [top_data['pollutant_id'].unique()]: one series of rows
    per value, a missing value among them when the column has one. *)
Definition scatter_series (argsort : list Q -> list nat) (data : DataFrame)
  : list (option string * DataFrame) :=
  let top := top_data argsort data in
  map (fun pollutant =>
         (pollutant, filter (fun r => eq_label (pollutant_id r) pollutant) top))
      (unique_by (opt_eqb String.eqb) (map pollutant_id top)).

(** ** The mode, counted cell by cell *)

(** Number of cells of a column that hold the number [v]. *)
Fixpoint occurrences (v : Q) (s : list (option Q)) : nat :=
  match s with
  | [] => 0%nat
  | Some x :: t => if Qeq_dec x v then S (occurrences v t) else occurrences v t
  | None :: t => occurrences v t
  end.

(** [m] is a value of the column, no value of the column occurs more often,
    and every value that occurs as often is at least [m]. *)
Definition most_frequent_least (s : list (option Q)) (m : Q) : Prop :=
  In (Some m) s /\
  (forall v, In (Some v) s -> (occurrences v s <= occurrences m s)%nat) /\
  (forall v, In (Some v) s -> occurrences v s = occurrences m s -> m <= v).

(** A frame whose modes are not the smallest values: 5 twice against 1 in
    [pollutant_min], 2 twice against 7 in [pollutant_max], 9 twice against
    3 in [pollutant_avg]. *)
Definition frame_modes : DataFrame :=
  [ mkRow (Some "Delhi"%string) PM10 (Some 5) (Some 2) None [];
    mkRow (Some "Pune"%string) PM10 (Some 5) None (Some 3) [];
    mkRow (Some "Agra"%string) PM10 (Some 1) (Some 2) (Some 9) [];
    mkRow (Some "Kochi"%string) PM10 None (Some 7) (Some 9) [] ].

(** ** Identical rows, column by column *)

(** Two cells are both missing or hold values that agree. *)
Definition same_cell {A} (R : A -> A -> Prop) (x y : option A) : Prop :=
  match x, y with
  | Some a, Some b => R a b
  | None, None => True
  | _, _ => False
  end.

Definition same_value (v w : value) : Prop :=
  match v, w with
  | VNum a, VNum b => a == b
  | VStr a, VStr b => a = b
  | _, _ => False
  end.

(** Two rows agree in every column: the same city and pollutant type, the
    same number (or both missing) in each pollutant column, and the same
    cells, one by one, in the further columns. *)
Definition same_row (r1 r2 : row) : Prop :=
  city r1 = city r2 /\
  pollutant_id r1 = pollutant_id r2 /\
  same_cell Qeq (pollutant_min r1) (pollutant_min r2) /\
  same_cell Qeq (pollutant_max r1) (pollutant_max r2) /\
  same_cell Qeq (pollutant_avg r1) (pollutant_avg r2) /\
  Forall2 (same_cell same_value) (extra r1) (extra r2).

(** The row read at a position outside the frame. *)
Definition no_row : row := mkRow None None None None None [].

(** ** The ranking, whatever the sort does with equal values *)

(** Larger values first, missing values last; nothing is said of entries
    with equal values. *)
Definition by_value (a b : string * option Q) : Prop :=
  match snd a, snd b with
  | Some x, Some y => y <= x
  | Some _, None => True
  | None, Some _ => False
  | None, None => True
  end.

(** Over every sort that returns the positions in ascending order of the
    values, the ranking has equal values in ascending order of the
    labels. *)
Definition ties_by_label (v : view) (n : Z) : Prop :=
  forall argsort,
    (forall xs, argsort_of xs (argsort xs)) ->
    StronglySorted ranks_before (TopN argsort v n).

(** A grouped series with two cities at the same mean and one without a
    mean. *)
Definition view_cities : view :=
  [ ("Agra"%string, Some 15); ("Delhi"%string, Some 15);
    ("Pune"%string, Some 5); ("Surat"%string, None) ].

(** ** Rounded arithmetic

    The percentiles, the bounds and the group means are computed in
    floating point: every addition, subtraction, multiplication and division
    returns the number of the format nearest to the exact result.  The
    numbers are still rationals here (a number of the format is one), and
    the rounding is a function [rnd] on them; comparisons are exact. *)

Definition pow2 (e : Z) : Q :=
  if (0 <=? e)%Z then inject_Z (2 ^ e) else 1 # Z.to_pos (2 ^ (- e)).

(** The nearest integer, the even one when two are as near. *)
Definition round_half_even (q : Q) : Z :=
  let f := Qfloor q in
  match Qcompare (q - inject_Z f) (1 # 2) with
  | Lt => f
  | Gt => (f + 1)%Z
  | Eq => if Z.even f then f else (f + 1)%Z
  end.

(** The exponent [e] with [2^e <= |q| < 2^(e+1)], for [q] other than 0. *)
Definition binade (q : Q) : Z :=
  let n := Z.abs (Qnum q) in
  let e0 := (Z.log2 n - Z.log2 (Zpos (Qden q)))%Z in
  if Qle_bool (pow2 e0) (n # Qden q) then e0 else (e0 - 1)%Z.

(** Rounding to binary64: to the nearest number with 53 significant bits,
    ties to the even one.  The range of the exponent is not modelled: no
    overflow to infinity and no subnormal numbers. *)
Definition binary64 (x : Q) : Q :=
  let q := Qred x in
  if Qeq_bool q 0 then 0
  else
    let e := (binade q - 52)%Z in
    Qred (inject_Z (round_half_even (q / pow2 e)) * pow2 e).

Module Rounded.
Section Arith.
Variable rnd : Q -> Q.

Definition add (a b : Q) : Q := rnd (a + b).
Definition sub (a b : Q) : Q := rnd (a - b).
Definition mul (a b : Q) : Q := rnd (a * b).
Definition div (a b : Q) : Q := rnd (a / b).

(** The interpolation of [np.percentile] between two neighbours [a] and [b]
    at the fraction [t]: [a + (b - a) * t], and [b - (b - a) * (1 - t)] from
    [t = 0.5] on. *)
Definition lerp (a b t : Q) : Q :=
  let diff_b_a := sub b a in
  if Qle_bool (1 # 2) t then sub b (mul diff_b_a (sub 1 t))
  else add a (mul diff_b_a t).

(** [np.percentile(a, p)], method ['linear'], for [p] a whole number of
    percents: an empty array raises [IndexError], a missing value makes the
    result NaN.  The virtual index [(n - 1) * p / 100] and its fraction are
    exact in binary64 for the percents 25 and 75 and any column that fits
    in memory, and are computed exactly here. *)
Definition percentile (a : list (option Q)) (p : Z) : result (option Q) :=
  match a with
  | [] => Raise IndexError
  | _ =>
      if existsb Series.isna a then Ok None
      else
        let arr := Series.sort (Series.dropna a) in
        let n := Z.of_nat (length arr) in
        let virtual_index := (inject_Z p / 100) * (inject_Z n - 1) in
        let previous := Qfloor virtual_index in
        let next := Z.min (previous + 1) (n - 1) in
        let gamma := virtual_index - inject_Z previous in
        Ok (Some (lerp (nth (Z.to_nat previous) arr 0)
                       (nth (Z.to_nat next) arr 0) gamma))
  end.

(** The outlier tab: [Q1], [Q3], [IQR], [lower], [upper], [outliers] and
    [clean_data]. *)
Definition DetectOutliers (data : DataFrame)
  : result ((option Q * option Q) * DataFrame * DataFrame) :=
  Q1 <- percentile (column Cavg data) 25 ;;
  Q3 <- percentile (column Cavg data) 75 ;;
  let IQR := lift2 sub Q3 Q1 in
  let lower := lift2 sub Q1 (lift2 mul (Some (3 # 2)) IQR) in
  let upper := lift2 add Q3 (lift2 mul (Some (3 # 2)) IQR) in
  Ok ((lower, upper),
      filter (fun r => cmp2 Qltb (pollutant_avg r) lower
                       || cmp2 Qltb upper (pollutant_avg r)) data,
      filter (fun r => cmp2 Qle_bool lower (pollutant_avg r)
                       && cmp2 Qle_bool (pollutant_avg r) upper) data).

(** The state of one group in the pass of [groupby(...).mean()]: the number
    of values seen, their running sum and the compensation of the sum. *)
Record acc : Type := mkAcc { nobs : nat; sumx : Q; compensation : Q }.

Definition acc0 : acc := mkAcc 0 0 0.

(** One value enters a group (compensated summation):
    [y = val - compensation; t = sumx + y; compensation = t - sumx - y;
    sumx = t]. *)
Definition kahan_step (a : acc) (val : Q) : acc :=
  let y := sub val (compensation a) in
  let t := add (sumx a) y in
  mkAcc (S (nobs a)) t (sub (sub t (sumx a)) y).

Definition group_update (k : string) (val : Q) (st : list (string * acc))
  : list (string * acc) :=
  map (fun p => if String.eqb (fst p) k then (fst p, kahan_step (snd p) val) else p) st.

(** One row of the pass: a row without a city belongs to no group, and a
    row without a value changes nothing. *)
Definition group_step (st : list (string * acc)) (r : row) : list (string * acc) :=
  match city r, pollutant_avg r with
  | Some k, Some val => group_update k val st
  | _, _ => st
  end.

Definition group_pass (data : DataFrame) : list (string * acc) :=
  fold_left group_step data (map (fun k => (k, acc0)) (group_keys data)).

(** [sumx / count], NaN for a group without values. *)
Definition finish (a : acc) : option Q :=
  match nobs a with
  | O => None
  | S _ => Some (div (sumx a) (inject_Z (Z.of_nat (nobs a))))
  end.

(** [data.groupby('city')['pollutant_avg'].mean()] *)
Definition GroupAggregate (data : DataFrame) : view :=
  map (fun p => (fst p, finish (snd p))) (group_pass data).

End Arith.
End Rounded.

(** ** Statements about the rounded computations *)

(** The interpolated percentile [p] of ascending values, written out: with
    [k] the position [(n - 1) * p / 100] rounded down and [f] the hundredths
    left over, between [arr[k]] and its right neighbour. *)
Definition interpolated (rnd : Q -> Q) (arr : list Q) (p : Z) : Q :=
  let n := Z.of_nat (length arr) in
  let k := ((n - 1) * p / 100)%Z in
  let f := (((n - 1) * p) mod 100)%Z # 100 in
  let a := nth (Z.to_nat k) arr 0 in
  let b := nth (Z.to_nat (Z.min (k + 1) (n - 1))) arr 0 in
  if Qle_bool (1 # 2) f
  then rnd (b - rnd (rnd (b - a) * rnd (1 - f)))
  else rnd (a + rnd (rnd (b - a) * f)).

(** The bounds from the quartiles of ascending values: [Q1 - 1.5 * IQR] and
    [Q3 + 1.5 * IQR] with [IQR = Q3 - Q1], every operation rounded. *)
Definition iqr_bounds (rnd : Q -> Q) (arr : list Q) : Q * Q :=
  let q1 := interpolated rnd arr 25 in
  let q3 := interpolated rnd arr 75 in
  (rnd (q1 - rnd ((3 # 2) * rnd (q3 - q1))),
   rnd (q3 + rnd ((3 # 2) * rnd (q3 - q1)))).

(** The same bounds in exact arithmetic. *)
Definition exact_bounds (arr : list Q) : Q * Q :=
  let q1 := linear_percentile_spec arr 25 in
  let q3 := linear_percentile_spec arr 75 in
  (q1 - (3 # 2) * (q3 - q1), q3 + (3 # 2) * (q3 - q1)).

(** The outliers are the rows strictly outside the exact bounds. *)
Definition classifies_by_exact_bounds (rnd : Q -> Q) (data : DataFrame) : Prop :=
  forall b out clean arr,
    Rounded.DetectOutliers rnd data = Ok (b, out, clean) ->
    Permutation (map Some arr) (column Cavg data) ->
    StronglySorted Qle arr ->
    forall r x, In r data -> pollutant_avg r = Some x ->
      (In r out <-> x < fst (exact_bounds arr) \/ snd (exact_bounds arr) < x).

(** The compensated sum of an array, every operation rounded: the running
    sum and its compensation. *)
Definition compensated_sum (rnd : Q -> Q) (xs : list Q) : Q * Q :=
  fold_left
    (fun sc x =>
       let y := rnd (x - snd sc) in
       let t := rnd (fst sc + y) in
       (t, rnd (rnd (t - fst sc) - y)))
    xs (0, 0).

(** The [pollutant_avg] values of the rows of a city, in the order of the
    rows. *)
Definition group_values (k : string) (data : DataFrame) : list Q :=
  flat_map
    (fun r =>
       match city r, pollutant_avg r with
       | Some c, Some x => if String.eqb c k then [x] else []
       | _, _ => []
       end)
    data.

(** The entry of every city is the arithmetic mean of its values. *)
Definition group_value_is_mean (rnd : Q -> Q) (data : DataFrame) : Prop :=
  forall k m, In (k, m) (Rounded.GroupAggregate rnd data) ->
    match group_values k data with
    | [] => m = None
    | xs => exists q, m = Some q /\
                      q == fold_right Qplus 0 xs / inject_Z (Z.of_nat (length xs))
    end.

(** The readings 1.8, 2.7, 2.5 and 2.4 as binary64 numbers. *)
Definition frame_decimals : DataFrame :=
  map (fun x => reading "Delhi" (Some (binary64 x)))
      [18 # 10; 27 # 10; 25 # 10; 24 # 10].

(** Three readings 0.1 of one city, as binary64 numbers. *)
Definition frame_tenths : DataFrame :=
  [ reading "Delhi" (Some (binary64 (1 # 10)));
    reading "Delhi" (Some (binary64 (1 # 10)));
    reading "Delhi" (Some (binary64 (1 # 10))) ].

(** * Facts *)

(** ** Series *)

Lemma dropna_In {A} (s : list (option A)) (v : A) :
  In v (Series.dropna s) <-> In (Some v) s.
Proof.
  induction s as [|[a|] t IH]; simpl.
  - tauto.
  - rewrite IH. split; intros [H|H]; auto; left; congruence.
  - rewrite IH. split; [auto | intros [H|H]; [discriminate | auto]].
Qed.

Lemma dropna_nil_iff (s : list (option Q)) :
  Series.dropna s = [] <-> ~ has_value s.
Proof.
  split.
  - intros E [v Hv]. apply dropna_In in Hv. rewrite E in Hv. contradiction.
  - intros H. destruct (Series.dropna s) as [|v t] eqn:E; [reflexivity|].
    exfalso. apply H. exists v. apply dropna_In. rewrite E. now left.
Qed.

Lemma has_value_dec (s : list (option Q)) : {has_value s} + {~ has_value s}.
Proof.
  destruct (Series.dropna s) as [|v t] eqn:E.
  - right. now apply dropna_nil_iff.
  - left. exists v. apply dropna_In. rewrite E. now left.
Qed.

Lemma mean_defined (s : list (option Q)) :
  has_value s <-> exists m, Series.mean s = Some m.
Proof.
  unfold Series.mean. destruct (Series.dropna s) as [|v t] eqn:E.
  - split; [|intros [m Hm]; discriminate].
    intros H. apply dropna_nil_iff in E. contradiction.
  - split; [eauto|]. intros _. exists v. apply dropna_In. rewrite E. now left.
Qed.

Lemma insert_perm (x : Q) (l : list Q) : Permutation (Series.insert x l) (x :: l).
Proof.
  induction l as [|y t IH]; simpl; [reflexivity|].
  destruct (Qle_bool x y); [reflexivity|].
  rewrite IH. apply perm_swap.
Qed.

Lemma sort_perm (l : list Q) : Permutation (Series.sort l) l.
Proof.
  induction l as [|x t IH]; simpl; [reflexivity|].
  rewrite insert_perm. now constructor.
Qed.

Lemma sort_length (l : list Q) : length (Series.sort l) = length l.
Proof. apply Permutation_length, sort_perm. Qed.

Lemma Qle_bool_false (x y : Q) : Qle_bool x y = false -> y < x.
Proof.
  intros H. apply Qnot_le_lt. intros L. apply Qle_bool_iff in L. congruence.
Qed.

Lemma insert_sorted (x : Q) (l : list Q) :
  StronglySorted Qle l -> StronglySorted Qle (Series.insert x l).
Proof.
  induction 1 as [|y t St IH Hall]; simpl.
  - repeat constructor.
  - destruct (Qle_bool x y) eqn:E.
    + apply Qle_bool_iff in E. constructor; [now constructor|].
      constructor; [assumption|].
      eapply Forall_impl; [|exact Hall]. intros a Ha. lra.
    + apply Qle_bool_false in E. constructor; [assumption|].
      rewrite Forall_forall in *. intros a Ha.
      apply (Permutation_in _ (insert_perm x t)) in Ha.
      destruct Ha as [<-|Ha]; [lra | auto].
Qed.

Lemma sort_sorted (l : list Q) : StronglySorted Qle (Series.sort l).
Proof.
  induction l as [|x t IH]; simpl; [constructor | now apply insert_sorted].
Qed.

Lemma sort_head_least (l : list Q) (m : Q) (t : list Q) :
  Series.sort l = m :: t -> forall v, In v l -> m <= v.
Proof.
  intros E v Hv. pose proof (sort_sorted l) as S. rewrite E in S.
  apply (Permutation_in _ (Permutation_sym (sort_perm l))) in Hv.
  rewrite E in Hv. inversion S as [|? ? _ Hall]; subst.
  destruct Hv as [<-|Hv]; [lra|]. rewrite Forall_forall in Hall. auto.
Qed.

Lemma median_defined (s : list (option Q)) :
  has_value s <-> exists m, Series.median s = Some m.
Proof.
  unfold Series.median. rewrite sort_length.
  destruct (Series.dropna s) as [|v t] eqn:E; simpl length.
  - split; [|intros [m Hm]; discriminate].
    intros H. apply dropna_nil_iff in E. contradiction.
  - split.
    + intros _. destruct (Nat.even (S (length t))); eauto.
    + intros _. exists v. apply dropna_In. rewrite E. now left.
Qed.

(** *** The mode *)

Lemma Qeq_bool_congr (u v x : Q) : u == v -> Qeq_bool u x = Qeq_bool v x.
Proof.
  intros E. destruct (Qeq_bool v x) eqn:Hv.
  - apply Qeq_bool_iff in Hv. apply Qeq_bool_iff. now rewrite E.
  - destruct (Qeq_bool u x) eqn:Hu; [|reflexivity].
    apply Qeq_bool_iff in Hu. rewrite E in Hu. apply Qeq_bool_iff in Hu. congruence.
Qed.

Lemma count_congr (u v : Q) (xs : list Q) :
  u == v -> Series.count u xs = Series.count v xs.
Proof.
  intros E. unfold Series.count. f_equal. apply filter_ext.
  intros x. now apply Qeq_bool_congr.
Qed.

Lemma unique_incl (xs : list Q) (v : Q) : In v (Series.unique xs) -> In v xs.
Proof.
  induction xs as [|x t IH]; simpl; [tauto|].
  intros [H|H]; [now left|]. apply filter_In in H. right. tauto.
Qed.

Lemma unique_covers (xs : list Q) (v : Q) :
  In v xs -> exists u, In u (Series.unique xs) /\ u == v.
Proof.
  induction xs as [|x t IH]; simpl; [tauto|].
  intros [->|H].
  - exists v. split; [now left | reflexivity].
  - destruct (IH H) as [u [Hu E]].
    destruct (Qeq_bool x u) eqn:B.
    + apply Qeq_bool_iff in B. exists x. split; [now left | now rewrite B].
    + exists u. split; [|assumption]. right. apply filter_In. now rewrite B.
Qed.

Lemma max_count_ge (vc : list (Q * nat)) (p : Q * nat) :
  In p vc -> (snd p <= Series.max_count vc)%nat.
Proof.
  unfold Series.max_count. induction vc as [|q t IH]; simpl; [tauto|].
  intros [->|H]; [lia|]. specialize (IH H). lia.
Qed.

Lemma max_count_attained (vc : list (Q * nat)) :
  vc <> [] -> exists p, In p vc /\ snd p = Series.max_count vc.
Proof.
  unfold Series.max_count. induction vc as [|q t IH]; [congruence|]. intros _.
  destruct t as [|q' t'].
  - exists q. simpl. split; [now left | lia].
  - destruct IH as [p [Hp E]]; [discriminate|].
    simpl fold_right in *. simpl map in *.
    destruct (Nat.max_spec (snd q) (fold_right Nat.max 0%nat (snd q' :: map snd t')))
      as [[_ M]|[_ M]].
    + exists p. split; [now right|]. simpl in *. lia.
    + exists q. split; [now left|]. simpl in *. lia.
Qed.

Lemma In_value_counts (xs : list Q) (p : Q * nat) :
  In p (Series.value_counts xs) <->
  In (fst p) (Series.unique xs) /\ snd p = Series.count (fst p) xs.
Proof.
  unfold Series.value_counts. rewrite in_map_iff. split.
  - intros [v [<- Hv]]. simpl. auto.
  - intros [H E]. exists (fst p). split; [|assumption].
    destruct p; simpl in *. now subst.
Qed.

(** On a series with a value, [mode()[0]] is the most frequent value, the
    smallest of the most frequent ones. *)
Lemma mode_head (s : list (option Q)) :
  has_value s ->
  exists m t, Series.mode s = m :: t /\ first_mode (Series.dropna s) m.
Proof.
  intros Hs. unfold Series.mode.
  set (xs := Series.dropna s).
  set (vc := Series.value_counts xs).
  set (best := map fst (filter (fun p => Nat.eqb (snd p) (Series.max_count vc)) vc)).
  assert (Hbest : forall u, In u best <->
            In u (Series.unique xs) /\ Series.count u xs = Series.max_count vc).
  { intros u. unfold best. rewrite in_map_iff. split.
    - intros [p [<- Hp]]. apply filter_In in Hp. destruct Hp as [Hp E].
      apply Nat.eqb_eq in E. apply In_value_counts in Hp. destruct Hp as [H1 H2].
      split; [assumption | congruence].
    - intros [H1 H2]. exists (u, Series.count u xs). split; [reflexivity|].
      apply filter_In. split; [apply In_value_counts; auto|].
      simpl. now apply Nat.eqb_eq. }
  assert (Hmax : forall v, In v xs -> (Series.count v xs <= Series.max_count vc)%nat).
  { intros v Hv. destruct (unique_covers xs v Hv) as [u [Hu E]].
    rewrite <- (count_congr u v xs E).
    apply (max_count_ge vc (u, Series.count u xs)).
    apply In_value_counts. auto. }
  assert (Hne : best <> []).
  { destruct Hs as [v Hv]. apply dropna_In in Hv. fold xs in Hv.
    destruct (unique_covers xs v Hv) as [u [Hu _]].
    destruct (max_count_attained vc) as [p [Hp E]].
    - unfold vc, Series.value_counts. destruct (Series.unique xs); [contradiction|].
      discriminate.
    - apply In_value_counts in Hp. destruct Hp as [H1 H2].
      intros Hnil. assert (In (fst p) best) as Hin by (apply Hbest; split; congruence).
      rewrite Hnil in Hin. contradiction. }
  destruct (Series.sort best) as [|m t] eqn:E.
  - exfalso. apply Hne. apply Permutation_nil.
    rewrite <- E. apply sort_perm.
  - exists m, t. split; [reflexivity|].
    assert (Hm : In m best).
    { apply (Permutation_in _ (sort_perm best)). rewrite E. now left. }
    apply Hbest in Hm. destruct Hm as [Hm1 Hm2].
    split; [now apply unique_incl|]. split.
    + intros v Hv. rewrite Hm2. now apply Hmax.
    + intros v Hv Hc. destruct (unique_covers xs v Hv) as [u [Hu Eu]].
      rewrite <- Eu. apply (sort_head_least best m t E).
      apply Hbest. split; [assumption|].
      rewrite (count_congr u v xs Eu). congruence.
Qed.

Lemma mode_nil (s : list (option Q)) : ~ has_value s -> Series.mode s = [].
Proof.
  intros H. apply dropna_nil_iff in H. unfold Series.mode. now rewrite H.
Qed.

(** ** Cleaning *)

Lemma column_fill_other (c c' : num_col) (v : option Q) (data : DataFrame) :
  c <> c' -> column c (fill_column c' v data) = column c data.
Proof.
  intros N. unfold column, fill_column. rewrite map_map. apply map_ext.
  intros r. destruct c, c'; try congruence; reflexivity.
Qed.

Lemma fill_three (stat : num_col -> option Q) (data : DataFrame) :
  fill_column Cavg (stat Cavg)
    (fill_column Cmax (stat Cmax) (fill_column Cmin (stat Cmin) data))
  = map (fill_row stat) data.
Proof.
  unfold fill_column. rewrite !map_map. apply map_ext. intros r. reflexivity.
Qed.

(** The loop over [num_cols] fills each column from its own values: a fill
    of one column leaves the two others as they were. *)
Lemma for_cols_stat (stat : list (option Q) -> option Q) (data : DataFrame) :
  for_cols (fun col d => Ok (fill_column col (stat (column col d)) d)) num_cols data
  = Ok (map (fill_row (fun c => stat (column c data))) data).
Proof.
  unfold num_cols. cbn [for_cols bind].
  rewrite !column_fill_other by discriminate.
  now rewrite <- fill_three.
Qed.

Lemma Clean_mean (data : DataFrame) :
  Clean FillMean data
  = Ok (map (fill_row (fun c => Series.mean (column c data))) data).
Proof. apply (for_cols_stat Series.mean). Qed.

Lemma Clean_median (data : DataFrame) :
  Clean FillMedian data
  = Ok (map (fill_row (fun c => Series.median (column c data))) data).
Proof. apply (for_cols_stat Series.median). Qed.

Lemma Clean_mode_ok (data : DataFrame) (m : num_col -> Q) :
  (forall c, exists t, Series.mode (column c data) = m c :: t) ->
  Clean FillMode data = Ok (map (fill_row (fun c => Some (m c))) data).
Proof.
  intros H. unfold Clean, num_cols. cbn [for_cols].
  destruct (H Cmin) as [t1 E1]. rewrite E1. cbn [getitem0 bind].
  rewrite column_fill_other by discriminate.
  destruct (H Cmax) as [t2 E2]. rewrite E2. cbn [getitem0 bind].
  rewrite !column_fill_other by discriminate.
  destruct (H Cavg) as [t3 E3]. rewrite E3. cbn [getitem0 bind].
  now rewrite <- (fill_three (fun c => Some (m c))).
Qed.

Lemma Clean_mode_raise (data : DataFrame) (c : num_col) :
  ~ has_value (column c data) -> Clean FillMode data = Raise KeyError.
Proof.
  intros H. apply mode_nil in H. unfold Clean, num_cols. cbn [for_cols].
  destruct (Series.mode (column Cmin data)) as [|m1 t1] eqn:E1;
    cbn [getitem0 bind]; [reflexivity|].
  rewrite column_fill_other by discriminate.
  destruct (Series.mode (column Cmax data)) as [|m2 t2] eqn:E2;
    cbn [getitem0 bind]; [reflexivity|].
  rewrite !column_fill_other by discriminate.
  destruct (Series.mode (column Cavg data)) as [|m3 t3] eqn:E3;
    cbn [getitem0 bind]; [reflexivity|].
  destruct c; congruence.
Qed.

Lemma get_fill_row (stat : num_col -> option Q) (c : num_col) (r : row) :
  get c (fill_row stat r) = Series.fillna (stat c) (get c r).
Proof. destruct c; reflexivity. Qed.

Lemma fill_row_none (stat : num_col -> option Q) (r : row) :
  (forall c, get c r = None -> stat c = None) -> fill_row stat r = r.
Proof.
  intros H. destruct r as [ci pid mn mx av ex]. unfold fill_row. simpl.
  pose proof (H Cmin) as H1. pose proof (H Cmax) as H2. pose proof (H Cavg) as H3.
  simpl in H1, H2, H3.
  destruct mn, mx, av; simpl;
    rewrite ?H1, ?H2, ?H3 by reflexivity; reflexivity.
Qed.

Lemma no_missing_fill (stat : num_col -> option Q) (data : DataFrame) (c : num_col) :
  stat c <> None -> no_missing c (map (fill_row stat) data).
Proof.
  intros H r Hr. apply in_map_iff in Hr. destruct Hr as [r0 [<- _]].
  rewrite get_fill_row. destruct (get c r0); simpl; [discriminate | assumption].
Qed.

Lemma row_hasna_complete (r : row) : row_hasna r = false <-> complete r.
Proof.
  unfold row_hasna, complete. rewrite !orb_false_iff.
  assert (Hex : existsb Series.isna (extra r) = false <-> ~ In None (extra r)).
  { split.
    - intros E Hin. assert (existsb Series.isna (extra r) = true) as T; [|congruence].
      apply existsb_exists. exists None. auto.
    - intros N. destruct (existsb Series.isna (extra r)) eqn:E; [|reflexivity].
      apply existsb_exists in E. destruct E as [[v|] [Hin Hv]]; [discriminate|].
      contradiction. }
  rewrite Hex.
  destruct (city r), (pollutant_id r), (pollutant_min r), (pollutant_max r),
    (pollutant_avg r); simpl; intuition congruence.
Qed.

Lemma num_hasna_row_hasna (r : row) : num_hasna r = true -> row_hasna r = true.
Proof.
  unfold num_hasna, row_hasna. rewrite !orb_true_iff. tauto.
Qed.

(** C1, as the specification words it, fails: the row of [frame_no_city]
    has its three pollutant values and is dropped. *)
Lemma drop_rows_on_num_cols_fails : ~ drop_rows_on_num_cols frame_no_city.
Proof. unfold drop_rows_on_num_cols. vm_compute. discriminate. Qed.

(** C1, amended: with the drop-rows strategy [Clean] keeps, in their order,
    exactly the rows without a missing cell in any column of the frame; a
    row with a missing pollutant value is removed, and so is a row whose
    only missing cells lie in other columns. *)
Theorem clean_drop_rows (data : DataFrame) :
  exists d',
    Clean DropRows data = Ok d' /\
    d' = filter (fun r => negb (row_hasna r)) data /\
    (forall r, In r d' <-> In r data /\ complete r) /\
    (forall r, num_hasna r = true -> ~ In r d') /\
    (forall r, row_hasna r = true -> ~ In r d').
Proof.
  exists (filter (fun r => negb (row_hasna r)) data).
  split; [reflexivity|]. split; [reflexivity|].
  assert (M : forall r, In r (filter (fun r => negb (row_hasna r)) data)
                        <-> In r data /\ complete r).
  { intros r. rewrite filter_In, negb_true_iff, row_hasna_complete. tauto. }
  split; [exact M|]. split.
  - intros r H Hin. apply M in Hin. destruct Hin as [_ C].
    apply row_hasna_complete in C. apply num_hasna_row_hasna in H. congruence.
  - intros r H Hin. apply M in Hin. destruct Hin as [_ C].
    apply row_hasna_complete in C. congruence.
Qed.

(** C2, as the specification words it, fails: the mean of a column without
    values is NaN, and filling with it leaves the column missing. *)
Lemma fill_leaves_no_missing_fails : ~ fill_leaves_no_missing FillMean frame_empty_min.
Proof.
  intros H.
  assert (E : exists d', Clean FillMean frame_empty_min = Ok d' /\
                         In (mkRow (Some "Delhi"%string) PM10 None (Some 2) (Some 3) []) d').
  { eexists. split; [vm_compute; reflexivity | now left]. }
  destruct E as [d' [E Hin]]. specialize (H d' E Cmin _ Hin).
  now apply H.
Qed.

Lemma stat_of_modes (data : DataFrame) :
  (forall c, has_value (column c data)) ->
  exists stat : num_col -> Q,
    (forall c, exists t, Series.mode (column c data) = stat c :: t) /\
    (forall c, first_mode (Series.dropna (column c data)) (stat c)).
Proof.
  intros H. exists (fun c => hd 0 (Series.mode (column c data))).
  split; intros c; destruct (mode_head _ (H c)) as [m [t [E F]]];
    rewrite E; simpl; eauto.
Qed.

(** C2, amended: on a frame in which each of the three pollutant columns
    holds at least one value, [Clean] with a fill strategy returns a frame
    without a missing value in these columns. *)
Theorem fill_no_missing (m : method) (data : DataFrame) :
  m <> DropRows ->
  (forall c, has_value (column c data)) ->
  exists d', Clean m data = Ok d' /\ forall c, no_missing c d'.
Proof.
  intros Hm Hv. destruct m; [| | |congruence].
  - eexists. split; [apply Clean_mean|]. intros c. apply no_missing_fill.
    destruct (proj1 (mean_defined _) (Hv c)) as [x E]. rewrite E. discriminate.
  - eexists. split; [apply Clean_median|]. intros c. apply no_missing_fill.
    destruct (proj1 (median_defined _) (Hv c)) as [x E]. rewrite E. discriminate.
  - destruct (stat_of_modes data Hv) as [stat [Hs _]].
    eexists. split; [apply (Clean_mode_ok data stat Hs)|].
    intros c. apply no_missing_fill. discriminate.
Qed.

Lemma frame_gaps_has_values : forall c, has_value (column c frame_gaps).
Proof.
  intros c. destruct c; [exists 1 | exists 9 | exists 2]; simpl; auto.
Defined.

Lemma fill_no_missing_witness :
  FillMedian <> DropRows /\
  (forall c, has_value (column c frame_gaps)) /\
  exists d', Clean FillMedian frame_gaps = Ok d' /\ forall c, no_missing c d'.
Proof.
  split; [discriminate|]. split; [exact frame_gaps_has_values|].
  apply (fill_no_missing FillMedian frame_gaps);
    [discriminate | exact frame_gaps_has_values].
Defined.

(** C3, as the specification words it, fails: on a frame whose
    [pollutant_min] column has no value the mean strategy returns a frame. *)
Lemma fails_on_empty_column_fails : ~ fails_on_empty_column FillMean frame_empty_min.
Proof.
  intros H. destruct H as [e He].
  - exists Cmin. intros [v Hv]. simpl in Hv. intuition discriminate.
  - vm_compute in He. discriminate.
Qed.

Lemma column_fill_row (stat : num_col -> option Q) (c : num_col) (data : DataFrame) :
  column c (map (fill_row stat) data) = map (Series.fillna (stat c)) (column c data).
Proof.
  unfold column. rewrite !map_map. apply map_ext. intros r. apply get_fill_row.
Qed.

Lemma fillna_none (s : list (option Q)) : map (Series.fillna None) s = s.
Proof.
  induction s as [|[x|] t IH]; simpl; congruence.
Qed.

(** C3, amended: on a frame in which one of the three pollutant columns has
    no value, [Clean] with the mean or the median strategy does not fail and
    returns a frame in which that column is as it was, entirely missing;
    with the mode strategy it fails, with the [KeyError] of the lookup
    [mode()[0]].  When each of the three columns holds a value the three
    strategies return the frame filled with a defined statistic per
    column. *)
Theorem clean_empty_column (data : DataFrame) :
  ((exists c, ~ has_value (column c data)) ->
     (exists d1, Clean FillMean data = Ok d1 /\
        forall c, ~ has_value (column c data) -> column c d1 = column c data) /\
     (exists d2, Clean FillMedian data = Ok d2 /\
        forall c, ~ has_value (column c data) -> column c d2 = column c data) /\
     Clean FillMode data = Raise KeyError) /\
  ((forall c, has_value (column c data)) ->
     forall m, m <> DropRows ->
       exists stat : num_col -> Q,
         Clean m data = Ok (map (fill_row (fun c => Some (stat c))) data)).
Proof.
  split.
  - intros [c0 H0]. split; [|split].
    + eexists. split; [apply Clean_mean|]. intros c Hc.
      rewrite column_fill_row.
      destruct (Series.mean (column c data)) as [x|] eqn:E.
      * exfalso. apply Hc. apply mean_defined. eauto.
      * apply fillna_none.
    + eexists. split; [apply Clean_median|]. intros c Hc.
      rewrite column_fill_row.
      destruct (Series.median (column c data)) as [x|] eqn:E.
      * exfalso. apply Hc. apply median_defined. eauto.
      * apply fillna_none.
    + apply (Clean_mode_raise data c0 H0).
  - intros Hv m Hm. destruct m; [| | |congruence].
    + exists (fun c => match Series.mean (column c data) with Some x => x | None => 0 end).
      rewrite Clean_mean. f_equal. apply map_ext. intros r. unfold fill_row.
      destruct (proj1 (mean_defined _) (Hv Cmin)) as [x1 E1].
      destruct (proj1 (mean_defined _) (Hv Cmax)) as [x2 E2].
      destruct (proj1 (mean_defined _) (Hv Cavg)) as [x3 E3].
      now rewrite E1, E2, E3.
    + exists (fun c => match Series.median (column c data) with Some x => x | None => 0 end).
      rewrite Clean_median. f_equal. apply map_ext. intros r. unfold fill_row.
      destruct (proj1 (median_defined _) (Hv Cmin)) as [x1 E1].
      destruct (proj1 (median_defined _) (Hv Cmax)) as [x2 E2].
      destruct (proj1 (median_defined _) (Hv Cavg)) as [x3 E3].
      now rewrite E1, E2, E3.
    + destruct (stat_of_modes data Hv) as [stat [Hs _]].
      exists stat. apply (Clean_mode_ok data stat Hs).
Qed.

Lemma frame_empty_min_no_value : exists c, ~ has_value (column c frame_empty_min).
Proof.
  exists Cmin. intros [v Hv]. simpl in Hv.
  destruct Hv as [Hv|[Hv|Hv]]; [discriminate | discriminate | exact Hv].
Defined.

Lemma clean_empty_column_witness :
  ((exists c, ~ has_value (column c frame_empty_min)) /\
   (exists d1, Clean FillMean frame_empty_min = Ok d1 /\
      forall c, ~ has_value (column c frame_empty_min) ->
                column c d1 = column c frame_empty_min) /\
   (exists d2, Clean FillMedian frame_empty_min = Ok d2 /\
      forall c, ~ has_value (column c frame_empty_min) ->
                column c d2 = column c frame_empty_min) /\
   Clean FillMode frame_empty_min = Raise KeyError) /\
  ((forall c, has_value (column c frame_gaps)) /\
   forall m, m <> DropRows ->
     exists stat : num_col -> Q,
       Clean m frame_gaps = Ok (map (fill_row (fun c => Some (stat c))) frame_gaps)).
Proof.
  split.
  - split; [exact frame_empty_min_no_value|].
    exact (proj1 (clean_empty_column frame_empty_min) frame_empty_min_no_value).
  - split; [exact frame_gaps_has_values|].
    exact (proj2 (clean_empty_column frame_gaps) frame_gaps_has_values).
Defined.

(** The modes of [frame_gaps]: 1 and 3 tie in [pollutant_min], 4 and 9 in
    [pollutant_max], 2 and 7 in [pollutant_avg]; the smaller one fills. *)
Example clean_mode_frame_gaps :
  Clean FillMode frame_gaps =
  Ok [ mkRow (Some "Delhi"%string) PM10 (Some 1) (Some 9) (Some 2) [];
       mkRow (Some "Pune"%string) PM10 (Some 1) (Some 4) (Some 2) [];
       mkRow (Some "Agra"%string) PM10 (Some 3) (Some 4) (Some 7) [Some (VStr "x")];
       mkRow (Some "Agra"%string) PM10 (Some 3) (Some 4) (Some 2) [None];
       mkRow (Some "Kochi"%string) PM10 (Some 1) (Some 9) (Some 7) [] ].
Proof. vm_compute. reflexivity. Qed.

(** ** Duplicates *)

Section Eqb.
Context {A : Type} (eqb : A -> A -> bool).
Hypothesis eqb_refl : forall a, eqb a a = true.
Hypothesis eqb_trans : forall a b c, eqb a b = true -> eqb b c = true -> eqb a c = true.

Lemma opt_eqb_refl (x : option A) : opt_eqb eqb x x = true.
Proof. destruct x; simpl; auto. Qed.

Lemma opt_eqb_trans (x y z : option A) :
  opt_eqb eqb x y = true -> opt_eqb eqb y z = true -> opt_eqb eqb x z = true.
Proof. destruct x, y, z; simpl; try congruence. apply eqb_trans. Qed.

Lemma list_eqb_refl (l : list A) : list_eqb eqb l l = true.
Proof. induction l; simpl; [reflexivity|]. now rewrite eqb_refl. Qed.

Lemma list_eqb_trans (l1 l2 l3 : list A) :
  list_eqb eqb l1 l2 = true -> list_eqb eqb l2 l3 = true -> list_eqb eqb l1 l3 = true.
Proof.
  revert l2 l3. induction l1 as [|a t IH]; intros [|b t2] [|c t3]; simpl;
    try congruence.
  rewrite !andb_true_iff. intros [H1 H2] [H3 H4]. split; eauto.
Qed.

End Eqb.

Lemma string_eqb_trans (a b c : string) :
  String.eqb a b = true -> String.eqb b c = true -> String.eqb a c = true.
Proof. rewrite !String.eqb_eq. congruence. Qed.

Lemma value_eqb_refl (v : value) : value_eqb v v = true.
Proof. destruct v; simpl; [apply Qeq_bool_refl | apply String.eqb_refl]. Qed.

Lemma value_eqb_trans (a b c : value) :
  value_eqb a b = true -> value_eqb b c = true -> value_eqb a c = true.
Proof.
  destruct a, b, c; simpl; try congruence;
    [apply Qeq_bool_trans | apply string_eqb_trans].
Qed.

Lemma row_eqb_refl (r : row) : row_eqb r r = true.
Proof.
  unfold row_eqb.
  rewrite !(opt_eqb_refl _ String.eqb_refl), !(opt_eqb_refl _ Qeq_bool_refl).
  simpl. apply list_eqb_refl. apply opt_eqb_refl. apply value_eqb_refl.
Qed.

Lemma row_eqb_trans (a b c : row) :
  row_eqb a b = true -> row_eqb b c = true -> row_eqb a c = true.
Proof.
  unfold row_eqb. rewrite !andb_true_iff.
  intros [[[[[A1 A2] A3] A4] A5] A6] [[[[[B1 B2] B3] B4] B5] B6].
  repeat split.
  - eapply opt_eqb_trans; eauto using string_eqb_trans.
  - eapply opt_eqb_trans; eauto using string_eqb_trans.
  - eapply opt_eqb_trans; eauto using Qeq_bool_trans.
  - eapply opt_eqb_trans; eauto using Qeq_bool_trans.
  - eapply opt_eqb_trans; eauto using Qeq_bool_trans.
  - eapply list_eqb_trans; [|eassumption|eassumption].
    intros x y z. apply opt_eqb_trans. apply value_eqb_trans.
Qed.

Lemma kept_from_cons (seen : list row) (r : row) (t : DataFrame) :
  kept_from seen (r :: t) =
  if existsb (row_eqb r) seen then kept_from (r :: seen) t
  else r :: kept_from (r :: seen) t.
Proof.
  unfold kept_from. simpl. now destruct (existsb (row_eqb r) seen).
Qed.

Lemma existsb_rev {A} (f : A -> bool) (l : list A) : existsb f (rev l) = existsb f l.
Proof.
  induction l as [|a t IH]; simpl; [reflexivity|].
  rewrite existsb_app, IH. simpl. rewrite orb_false_r. apply orb_comm.
Qed.

Lemma kept_from_spec (data pre : DataFrame) :
  kept_from (rev pre) data =
  map snd
    (filter (fun p => negb (existsb (row_eqb (snd p)) (firstn (fst p) (pre ++ data))))
            (combine (seq (length pre) (length data)) data)).
Proof.
  revert pre. induction data as [|r t IH]; intros pre; [reflexivity|].
  rewrite kept_from_cons. simpl length. simpl seq. simpl combine. simpl filter.
  simpl fst. simpl snd.
  rewrite firstn_app, Nat.sub_diag, firstn_all. simpl firstn. rewrite app_nil_r.
  rewrite existsb_rev.
  assert (R : kept_from (r :: rev pre) t =
              map snd
                (filter (fun p => negb (existsb (row_eqb (snd p))
                                                (firstn (fst p) (pre ++ r :: t))))
                        (combine (seq (S (length pre)) (length t)) t))).
  { specialize (IH (pre ++ [r])). rewrite rev_app_distr in IH. simpl in IH.
    rewrite IH. rewrite length_app, Nat.add_1_r. rewrite <- app_assoc. reflexivity. }
  rewrite R. now destruct (existsb (row_eqb r) pre).
Qed.

Lemma kept_from_In (data seen : DataFrame) (x : row) :
  In x (kept_from seen data) -> In x data /\ existsb (row_eqb x) seen = false.
Proof.
  revert seen. induction data as [|r t IH]; intros seen; [contradiction|].
  rewrite kept_from_cons.
  destruct (existsb (row_eqb r) seen) eqn:E.
  - intros H. apply IH in H. destruct H as [H1 H2]. simpl in H2.
    apply orb_false_iff in H2. split; [now right | tauto].
  - intros [<-|H]; [split; [now left | assumption]|].
    apply IH in H. destruct H as [H1 H2]. simpl in H2.
    apply orb_false_iff in H2. split; [now right | tauto].
Qed.

Lemma kept_from_distinct (data seen : DataFrame) :
  ForallOrdPairs (fun a b => row_eqb b a = false) (kept_from seen data).
Proof.
  revert seen. induction data as [|r t IH]; intros seen; [constructor|].
  rewrite kept_from_cons. destruct (existsb (row_eqb r) seen); [apply IH|].
  constructor; [|apply IH]. apply Forall_forall. intros b Hb.
  apply kept_from_In in Hb. destruct Hb as [_ Hb]. simpl in Hb.
  apply orb_false_iff in Hb. tauto.
Qed.

Lemma kept_from_covers (data seen : DataFrame) (x : row) :
  In x data ->
  existsb (row_eqb x) seen = true \/
  exists x', In x' (kept_from seen data) /\ row_eqb x x' = true.
Proof.
  revert seen. induction data as [|r t IH]; intros seen; [contradiction|].
  rewrite kept_from_cons. intros [->|H].
  - destruct (existsb (row_eqb x) seen) eqn:E; [now left|].
    right. exists x. split; [now left | apply row_eqb_refl].
  - destruct (IH (r :: seen) H) as [S|[x' [Hx' Ex]]].
    + simpl in S. apply orb_true_iff in S. destruct S as [S|S]; [|now left].
      destruct (existsb (row_eqb r) seen) eqn:E.
      * left. apply existsb_exists in E. destruct E as [s [Hs Es]].
        apply existsb_exists. exists s. split; [assumption|].
        eapply row_eqb_trans; eassumption.
      * right. exists r. split; [now left | assumption].
    + right. exists x'. split; [|assumption].
      destruct (existsb (row_eqb r) seen); [assumption | now right].
Qed.

(** ** Group means *)

Lemma string_compare_gt (k h : string) :
  String.compare k h = Gt -> String_as_OT.lt h k.
Proof.
  intros H. apply String_as_OT.cmp_lt. unfold String_as_OT.cmp.
  rewrite String_as_OT.cmp_antisym. unfold String_as_OT.cmp. now rewrite H.
Qed.

Lemma insert_key_In (k x : string) (l : list string) :
  In x (insert_key k l) <-> x = k \/ In x l.
Proof.
  induction l as [|h t IH]; simpl.
  - intuition congruence.
  - destruct (String.compare k h) eqn:E; simpl.
    + apply String_as_OT.cmp_eq in E. subst. intuition congruence.
    + intuition congruence.
    + rewrite IH. intuition congruence.
Qed.

Lemma insert_key_sorted (k : string) (l : list string) :
  StronglySorted String_as_OT.lt l -> StronglySorted String_as_OT.lt (insert_key k l).
Proof.
  induction 1 as [|h t St IH Hall]; simpl.
  - repeat constructor.
  - destruct (String.compare k h) eqn:E.
    + now constructor.
    + apply String_as_OT.cmp_lt in E. constructor; [now constructor|].
      constructor; [assumption|].
      eapply Forall_impl; [|exact Hall]. intros a Ha.
      eapply String_as_OT.lt_trans; eassumption.
    + apply string_compare_gt in E. constructor; [assumption|].
      apply Forall_forall. intros a Ha. apply insert_key_In in Ha.
      destruct Ha as [->|Ha]; [assumption|].
      rewrite Forall_forall in Hall. auto.
Qed.

Lemma group_keys_In (data : DataFrame) (k : string) :
  In k (group_keys data) <-> In (Some k) (map city data).
Proof.
  unfold group_keys. rewrite <- dropna_In.
  induction (Series.dropna (map city data)) as [|x t IH]; simpl; [tauto|].
  rewrite insert_key_In, IH. intuition congruence.
Qed.

Lemma group_keys_sorted (data : DataFrame) :
  StronglySorted String_as_OT.lt (group_keys data).
Proof.
  unfold group_keys.
  induction (Series.dropna (map city data)) as [|x t IH]; simpl;
    [constructor | now apply insert_key_sorted].
Qed.

Lemma GroupAggregate_keys (data : DataFrame) :
  map fst (GroupAggregate data) = group_keys data.
Proof.
  unfold GroupAggregate. rewrite map_map. simpl. apply map_id.
Qed.

Lemma in_group_iff (k : string) (r : row) : in_group k r = true <-> city r = Some k.
Proof.
  unfold in_group. destruct (city r) as [c|]; simpl.
  - rewrite String.eqb_eq. split; congruence.
  - split; discriminate.
Qed.

(** ** Ranking *)

Section Sorted.
Context {A : Type}.

Lemma StronglySorted_nth (R : A -> A -> Prop) (l : list A) (d : A) :
  StronglySorted R l ->
  forall a b, (a < b)%nat -> (b < length l)%nat -> R (nth a l d) (nth b l d).
Proof.
  induction 1 as [|x t St IH Hall]; intros a b Hab Hb; simpl in Hb; [lia|].
  destruct b as [|b]; [lia|]. destruct a as [|a]; simpl.
  - rewrite Forall_forall in Hall. apply Hall. apply nth_In. lia.
  - apply IH; lia.
Qed.

Lemma StronglySorted_app (R : A -> A -> Prop) (l1 l2 : list A) :
  StronglySorted R l1 -> StronglySorted R l2 ->
  (forall a b, In a l1 -> In b l2 -> R a b) ->
  StronglySorted R (l1 ++ l2).
Proof.
  induction 1 as [|x t St IH Hall]; intros S2 Hc; simpl; [assumption|].
  constructor.
  - apply IH; [assumption|]. intros a b Ha Hb. apply Hc; [now right | assumption].
  - apply Forall_app. split; [assumption|].
    apply Forall_forall. intros b Hb. apply Hc; [now left | assumption].
Qed.

Lemma StronglySorted_rev (R : A -> A -> Prop) (l : list A) :
  StronglySorted R l -> StronglySorted (fun x y => R y x) (rev l).
Proof.
  induction 1 as [|x t St IH Hall]; simpl; [constructor|].
  apply StronglySorted_app; [assumption | repeat constructor |].
  intros a b Ha [<-|[]]. rewrite Forall_forall in Hall.
  apply Hall. now apply in_rev.
Qed.

Lemma StronglySorted_filter (R : A -> A -> Prop) (f : A -> bool) (l : list A) :
  StronglySorted R l -> StronglySorted R (filter f l).
Proof.
  induction 1 as [|x t St IH Hall]; simpl; [constructor|].
  destruct (f x); [|assumption]. constructor; [assumption|].
  rewrite Forall_forall in *. intros a Ha. apply filter_In in Ha. now apply Hall.
Qed.

Lemma StronglySorted_map_In {B : Type} (R : A -> A -> Prop) (R' : B -> B -> Prop)
    (f : A -> B) (l : list A) :
  (forall a b, In a l -> In b l -> R a b -> R' (f a) (f b)) ->
  StronglySorted R l -> StronglySorted R' (map f l).
Proof.
  intros H S. induction S as [|x t St IH Hall]; simpl; [constructor|].
  constructor.
  - apply IH. intros a b Ha Hb. apply H; now right.
  - rewrite Forall_forall in *. intros y Hy. apply in_map_iff in Hy.
    destruct Hy as [a [<- Ha]]. apply H; [now left | now right | now apply Hall].
Qed.

Lemma filter_split_perm (f : A -> bool) (l : list A) :
  Permutation (filter f l ++ filter (fun x => negb (f x)) l) l.
Proof.
  induction l as [|x t IH]; simpl; [constructor|].
  destruct (f x); simpl.
  - now constructor.
  - symmetry. apply Permutation_cons_app. now symmetry.
Qed.

End Sorted.

Lemma seq_sorted (a n : nat) : StronglySorted lt (seq a n).
Proof.
  revert a. induction n as [|n IH]; intros a; simpl; constructor; [apply IH|].
  apply Forall_forall. intros x Hx. apply in_seq in Hx. lia.
Qed.

Lemma dropna_app {A} (s1 s2 : list (option A)) :
  Series.dropna (s1 ++ s2) = Series.dropna s1 ++ Series.dropna s2.
Proof.
  induction s1 as [|[a|] t IH]; simpl; [reflexivity | now rewrite IH | assumption].
Qed.

(** The positions of the present values hold the present values. *)
Lemma notna_positions (items : list (option Q)) :
  map (fun i => nth i items None)
      (filter (fun i => Series.notna (nth i items None)) (seq 0 (length items)))
  = map Some (Series.dropna items).
Proof.
  induction items as [|x t IH] using rev_ind; [reflexivity|].
  rewrite length_app, Nat.add_1_r, seq_S, filter_app, map_app. simpl.
  rewrite dropna_app, map_app. f_equal.
  - rewrite <- IH.
    rewrite (filter_ext_in (fun i => Series.notna (nth i (t ++ [x]) None))
                           (fun i => Series.notna (nth i t None))).
    + apply map_ext_in. intros i Hi. apply filter_In in Hi. destruct Hi as [Hi _].
      apply in_seq in Hi. apply app_nth1. lia.
    + intros i Hi. apply in_seq in Hi. f_equal. apply app_nth1. lia.
  - rewrite app_nth2, Nat.sub_diag by lia. simpl.
    destruct x as [q|]; simpl; [|reflexivity].
    now rewrite app_nth2, Nat.sub_diag by lia.
Qed.

Lemma map_nth_seq {A} (l : list A) (d : A) :
  map (fun j => nth j l d) (seq 0 (length l)) = l.
Proof.
  induction l as [|x t IH] using rev_ind; [reflexivity|].
  rewrite length_app, Nat.add_1_r, seq_S, map_app. simpl. f_equal.
  - rewrite <- IH at 2. apply map_ext_in. intros i Hi. apply in_seq in Hi.
    apply app_nth1. lia.
  - now rewrite app_nth2, Nat.sub_diag by lia.
Qed.

Section Nargsort.
Variable argsort : list Q -> list nat.
Variable items : list (option Q).

Lemma non_nan_idx_values :
  map (fun i => nth i items None) (rev (present_idx items))
  = map Some (rev (Series.dropna items)).
Proof.
  unfold present_idx. rewrite !map_rev. f_equal. apply notna_positions.
Qed.

Lemma non_nan_idx_length :
  length (rev (present_idx items)) = length (rev (Series.dropna items)).
Proof.
  rewrite <- (length_map (fun i => nth i items None)), non_nan_idx_values.
  apply length_map.
Qed.

Lemma non_nan_idx_value (a : nat) :
  (a < length (rev (Series.dropna items)))%nat ->
  nth (nth a (rev (present_idx items)) 0%nat) items None
  = Some (nth a (rev (Series.dropna items)) 0).
Proof.
  intros H.
  assert (E : nth a (map (fun i => nth i items None) (rev (present_idx items))) None
              = nth a (map Some (rev (Series.dropna items))) None)
    by now rewrite non_nan_idx_values.
  rewrite (nth_indep _ None (nth 0%nat items None)) in E
    by (rewrite length_map, non_nan_idx_length; exact H).
  rewrite (map_nth (fun i => nth i items None)) in E.
  rewrite (nth_indep (map Some (rev (Series.dropna items))) None (Some 0)) in E
    by (rewrite length_map; exact H).
  now rewrite (map_nth Some) in E.
Qed.

Lemma non_nan_idx_desc :
  StronglySorted (fun x y => (y < x)%nat) (rev (present_idx items)).
Proof.
  unfold present_idx.
  apply (StronglySorted_rev lt), StronglySorted_filter, seq_sorted.
Qed.

Lemma non_nan_idx_bound (a : nat) :
  (a < length (rev (Series.dropna items)))%nat ->
  (nth a (rev (present_idx items)) 0 < length items)%nat.
Proof.
  intros H. rewrite <- non_nan_idx_length in H.
  pose proof (nth_In (rev (present_idx items)) 0%nat H) as Hin.
  apply (proj2 (in_rev (present_idx items) _)) in Hin.
  apply (proj1 (filter_In _ _ (seq 0 (length items)))) in Hin.
  destruct Hin as [Hin _]. apply in_seq in Hin. lia.
Qed.

Lemma absent_isna (i : nat) :
  In i (absent_idx items) -> nth i items None = None /\ (i < length items)%nat.
Proof.
  unfold absent_idx. intros H. apply filter_In in H. destruct H as [H1 H2].
  apply in_seq in H1. split; [|lia]. now destruct (nth i items None).
Qed.

(** The positions returned by [nargsort] are the positions of the series,
    each one once. *)
Lemma nargsort_perm :
  Permutation (argsort (rev (Series.dropna items)))
              (seq 0 (length (rev (Series.dropna items)))) ->
  Permutation (nargsort argsort items) (seq 0 (length items)).
Proof.
  intros HP. unfold nargsort.
  rewrite <- (filter_split_perm (fun i => Series.notna (nth i items None))
                                (seq 0 (length items))).
  apply Permutation_app.
  - rewrite <- Permutation_rev. rewrite HP, <- non_nan_idx_length, map_nth_seq.
    symmetry. apply Permutation_rev.
  - unfold absent_idx. erewrite filter_ext; [reflexivity|].
    intros i. unfold Series.notna. now rewrite negb_involutive.
Qed.

End Nargsort.

Lemma sort_values_perm (argsort : list Q -> list nat) (v : view) :
  let non_nans := rev (Series.dropna (map snd v)) in
  Permutation (argsort non_nans) (seq 0 (length non_nans)) ->
  Permutation (sort_values argsort v) v.
Proof.
  intros non_nans HP. unfold sort_values.
  rewrite (nargsort_perm argsort (map snd v) HP), length_map.
  now rewrite map_nth_seq.
Qed.

Lemma view_snd_nth (v : view) (i : nat) :
  snd (nth i v (EmptyString, None)) = nth i (map snd v) None.
Proof. symmetry. apply (map_nth snd v (EmptyString, None)). Qed.

Lemma view_keys_nth (v : view) (i j : nat) :
  keys_ascending v -> (i < j)%nat -> (j < length v)%nat ->
  String_as_OT.lt (fst (nth i v (EmptyString, None))) (fst (nth j v (EmptyString, None))).
Proof.
  intros K Hij Hj.
  rewrite <- !(map_nth fst v (EmptyString, None)).
  apply StronglySorted_nth; [exact K | exact Hij | now rewrite length_map].
Qed.

(** Over a stable [argsort], a series with ascending labels comes out of
    [sort_values(ascending=False)] in ranking order. *)
Lemma sort_values_ranked (argsort : list Q -> list nat) (v : view) :
  let non_nans := rev (Series.dropna (map snd v)) in
  keys_ascending v ->
  stable_argsort_of non_nans (argsort non_nans) ->
  StronglySorted ranks_before (sort_values argsort v).
Proof.
  intros non_nans K [HP HS]. unfold sort_values, nargsort.
  fold non_nans. rewrite map_app, map_rev.
  set (items := map snd v) in *.
  set (h := fun i => nth i v (EmptyString, None)).
  set (idx := rev (present_idx items)).
  assert (Hin : forall a, In a (argsort non_nans) -> (a < length non_nans)%nat).
  { intros a Ha. apply (Permutation_in _ HP) in Ha. apply in_seq in Ha. lia. }
  assert (Hv : forall a, (a < length non_nans)%nat ->
                 snd (h (nth a idx 0%nat)) = Some (nth a non_nans 0)).
  { intros a Ha. unfold h. rewrite view_snd_nth.
    apply (non_nan_idx_value items a Ha). }
  assert (Hlen : length items = length v) by apply length_map.
  apply StronglySorted_app.
  - apply (StronglySorted_rev (fun x y => ranks_before y x)).
    rewrite map_map.
    apply (StronglySorted_map_In
             (fun a b => nth a non_nans 0 < nth b non_nans 0 \/
                         (nth a non_nans 0 == nth b non_nans 0 /\ (a < b)%nat)));
      [|exact HS].
    intros a b Ha Hb R. apply Hin in Ha. apply Hin in Hb.
    unfold ranks_before. rewrite (Hv a Ha), (Hv b Hb).
    destruct R as [R|[R Hab]]; [now left|]. right. split; [now symmetry|].
    apply view_keys_nth; [exact K | |].
    + apply (StronglySorted_nth _ _ 0%nat (non_nan_idx_desc items) a b Hab).
      now rewrite non_nan_idx_length.
    + rewrite <- Hlen. apply (non_nan_idx_bound items a Ha).
  - apply (StronglySorted_map_In lt);
      [|unfold absent_idx; apply StronglySorted_filter, seq_sorted].
    intros i j Hi Hj Hij.
    apply absent_isna in Hi. apply absent_isna in Hj.
    destruct Hi as [Ei Li]. destruct Hj as [Ej Lj].
    unfold ranks_before, h. rewrite !view_snd_nth. fold items. rewrite Ei, Ej.
    apply view_keys_nth; [exact K | exact Hij | now rewrite <- Hlen].
  - intros x y Hx Hy.
    apply (proj2 (in_rev _ _)) in Hx. apply in_map_iff in Hx.
    destruct Hx as [i [<- Hi]]. apply in_map_iff in Hi. destruct Hi as [a [<- Ha]].
    apply in_map_iff in Hy. destruct Hy as [j [<- Hj]].
    apply absent_isna in Hj. destruct Hj as [Ej _].
    unfold ranks_before. fold idx. rewrite (Hv a (Hin a Ha)).
    unfold h. rewrite view_snd_nth. fold items. now rewrite Ej.
Qed.

Lemma GroupAggregate_keys_ascending (data : DataFrame) :
  keys_ascending (GroupAggregate data).
Proof.
  unfold keys_ascending. rewrite GroupAggregate_keys. apply group_keys_sorted.
Qed.

Lemma head_nonneg {A} (n : Z) (s : list A) :
  (0 <= n)%Z -> head n s = firstn (Z.to_nat n) s.
Proof.
  intros H. unfold head. apply Z.leb_le in H. now rewrite H.
Qed.

(** The insertion sort of the positions is a stable [argsort]. *)
Lemma insert_pos_perm (xs : list Q) (i : nat) (p : list nat) :
  Permutation (insert_pos xs i p) (i :: p).
Proof.
  induction p as [|j t IH]; simpl; [reflexivity|].
  destruct (Qle_bool (nth i xs 0) (nth j xs 0)); [reflexivity|].
  rewrite IH. apply perm_swap.
Qed.

Lemma insert_pos_sorted (xs : list Q) (i : nat) (p : list nat) :
  let S := fun a b => nth a xs 0 < nth b xs 0 \/
                      (nth a xs 0 == nth b xs 0 /\ (a < b)%nat) in
  (forall j, In j p -> (i < j)%nat) ->
  StronglySorted S p -> StronglySorted S (insert_pos xs i p).
Proof.
  intros S Hi Hp. induction Hp as [|j t St IH Hall]; simpl.
  - repeat constructor.
  - assert (Hij : (i < j)%nat) by (apply Hi; now left).
    assert (Hit : forall k, In k t -> (i < k)%nat) by (intros k Hk; apply Hi; now right).
    destruct (Qle_bool (nth i xs 0) (nth j xs 0)) eqn:E.
    + apply Qle_bool_iff in E. constructor; [now constructor|].
      assert (Sij : S i j).
      { unfold S. destruct (Qle_lt_or_eq _ _ E); [now left | now right]. }
      constructor; [exact Sij|].
      rewrite Forall_forall in *. intros k Hk.
      specialize (Hall k Hk). specialize (Hit k Hk). unfold S in *.
      destruct Sij as [A|[A _]], Hall as [B|[B _]].
      * left. lra.
      * left. lra.
      * left. lra.
      * right. split; [lra | exact Hit].
    + apply Qle_bool_false in E. constructor; [now apply IH|].
      apply Forall_forall. intros k Hk.
      apply (Permutation_in _ (insert_pos_perm xs i t)) in Hk.
      destruct Hk as [<-|Hk]; [now left|].
      rewrite Forall_forall in Hall. now apply Hall.
Qed.

Lemma insertion_argsort_stable (xs : list Q) :
  stable_argsort_of xs (insertion_argsort xs).
Proof.
  unfold stable_argsort_of, insertion_argsort.
  assert (G : forall L, StronglySorted lt L ->
            Permutation (fold_right (insert_pos xs) [] L) L /\
            StronglySorted
              (fun a b => nth a xs 0 < nth b xs 0 \/
                          (nth a xs 0 == nth b xs 0 /\ (a < b)%nat))
              (fold_right (insert_pos xs) [] L)).
  { induction 1 as [|i L St IH Hall]; simpl; [split; constructor|].
    destruct IH as [P S]. split.
    - rewrite insert_pos_perm. now constructor.
    - apply insert_pos_sorted; [|exact S].
      intros j Hj. apply (Permutation_in _ P) in Hj.
      rewrite Forall_forall in Hall. now apply Hall. }
  apply G, seq_sorted.
Qed.

(** The ranking of [frame_cities] over the insertion sort, which keeps equal
    means in the order of the names; the city without a value comes last. *)
Example city_avg_frame_cities :
  city_avg insertion_argsort frame_cities =
  [ ("Agra"%string, Some 15); ("Delhi"%string, Some 15);
    ("Pune"%string, Some 5); ("Surat"%string, None) ].
Proof. vm_compute. reflexivity. Qed.

(** Over a sort that is not stable the order of equal means is the order
    that sort leaves: here Delhi comes before Agra. *)
Example ties_follow_the_sort :
  let xs := rev (Series.dropna (map snd (GroupAggregate frame_cities))) in
  argsort_of xs (unstable_argsort xs) /\
  TopN unstable_argsort (GroupAggregate frame_cities) 10 =
  [ ("Delhi"%string, Some 15); ("Agra"%string, Some 15);
    ("Pune"%string, Some 5); ("Surat"%string, None) ].
Proof.
  split; [|vm_compute; reflexivity].
  split.
  - vm_compute. apply perm_swap || (repeat constructor).
  - vm_compute. repeat constructor; discriminate.
Qed.

(** ** Outliers *)

Lemma Qltb_lt (a b : Q) : Qltb a b = true <-> a < b.
Proof.
  unfold Qltb. rewrite negb_true_iff. split.
  - apply Qle_bool_false.
  - intros H. destruct (Qle_bool b a) eqn:E; [|reflexivity].
    apply Qle_bool_iff in E. lra.
Qed.

Lemma bounds_defined (data : DataFrame) (lo : Q) :
  lower data = Some lo -> exists hi, upper data = Some hi.
Proof.
  unfold lower, upper, IQR.
  destruct (Q1 data), (Q3 data); simpl; try discriminate. eauto.
Qed.

Lemma bounds_formula (data : DataFrame) (q1 q3 : Q) :
  Q1 data = Some q1 -> Q3 data = Some q3 ->
  lower data = Some (q1 - (3 # 2) * (q3 - q1)) /\
  upper data = Some (q3 + (3 # 2) * (q3 - q1)).
Proof.
  intros E1 E3. unfold lower, upper, IQR. rewrite E1, E3. simpl. auto.
Qed.

Lemma existsb_isna_false (s : list (option Q)) :
  existsb Series.isna s = false <-> ~ In None s.
Proof.
  split.
  - intros E H. assert (existsb Series.isna s = true) as T; [|congruence].
    apply existsb_exists. exists None. auto.
  - intros N. destruct (existsb Series.isna s) eqn:E; [|reflexivity].
    apply existsb_exists in E. destruct E as [[v|] [Hin Hv]]; [discriminate|].
    contradiction.
Qed.

(** The virtual index of the percentile [p] and its split into a position
    and a fraction. *)
Lemma virtual_index_floor (n p : Z) :
  let vi := (inject_Z p / 100) * (inject_Z n - 1) in
  Qfloor vi = ((n - 1) * p / 100)%Z /\
  vi - inject_Z (Qfloor vi) == (((n - 1) * p) mod 100)%Z # 100.
Proof.
  intros vi.
  assert (E : vi == ((n - 1) * p)%Z # 100).
  { unfold vi, Qeq, Qdiv, Qmult, Qminus, Qplus, Qopp, Qinv, inject_Z. simpl. lia. }
  assert (F : Qfloor vi = ((n - 1) * p / 100)%Z).
  { rewrite (Qfloor_comp _ _ E). reflexivity. }
  split; [exact F|]. rewrite F, E.
  unfold Qeq, Qminus, Qplus, Qopp, inject_Z. simpl.
  pose proof (Z.div_mod ((n - 1) * p) 100). lia.
Qed.

(** On a column without missing values the percentile is the value the
    linear interpolation names. *)
Lemma percentile_linear (a : list (option Q)) (p : Z) :
  a <> [] -> ~ In None a ->
  exists q, percentile a (inject_Z p) = Some q /\
            q == linear_percentile_spec (Series.sort (Series.dropna a)) p.
Proof.
  intros Hne Hna. unfold percentile.
  rewrite (proj2 (existsb_isna_false a) Hna).
  destruct (Series.sort (Series.dropna a)) as [|x t] eqn:E.
  - exfalso. destruct a as [|[v|] a']; [congruence | | apply Hna; now left].
    apply (f_equal (@length Q)) in E. rewrite sort_length in E. discriminate.
  - eexists. split; [reflexivity|]. rewrite Qred_correct.
    unfold linear_percentile_spec.
    destruct (virtual_index_floor (Z.of_nat (length (x :: t))) p) as [F G].
    cbv zeta in F, G. rewrite G, F. ring.
Qed.

Lemma bounds_together (data : DataFrame) :
  (exists lo hi, lower data = Some lo /\ upper data = Some hi) \/
  (lower data = None /\ upper data = None).
Proof.
  unfold lower, upper, IQR. destruct (Q1 data), (Q3 data); simpl; eauto.
Qed.

Lemma outliers_In (data : DataFrame) (r : row) :
  In r (outliers data) <->
  In r data /\
  exists x lo hi, pollutant_avg r = Some x /\ lower data = Some lo /\
                  upper data = Some hi /\ (x < lo \/ hi < x).
Proof.
  unfold outliers. rewrite filter_In, orb_true_iff.
  destruct (bounds_together data) as [[lo [hi [El Eu]]]|[El Eu]]; rewrite El, Eu.
  - destruct (pollutant_avg r) as [x|]; simpl.
    + rewrite !Qltb_lt. split.
      * intros [H C]. split; [exact H|]. exists x, lo, hi. auto.
      * intros [H [x' [lo' [hi' [Ex [A [B C]]]]]]].
        inversion Ex; inversion A; inversion B; subst. auto.
    + split; [intros [_ [H|H]]; discriminate|].
      intros [_ [x [lo' [hi' [Ex _]]]]]. discriminate.
  - split.
    + intros [_ [H|H]]; destruct (pollutant_avg r); discriminate.
    + intros [_ [x [lo [hi [_ [A _]]]]]]. discriminate.
Qed.

Lemma clean_data_In (data : DataFrame) (r : row) :
  In r (clean_data data) <->
  In r data /\
  exists x lo hi, pollutant_avg r = Some x /\ lower data = Some lo /\
                  upper data = Some hi /\ lo <= x /\ x <= hi.
Proof.
  unfold clean_data. rewrite filter_In, andb_true_iff.
  destruct (bounds_together data) as [[lo [hi [El Eu]]]|[El Eu]]; rewrite El, Eu.
  - destruct (pollutant_avg r) as [x|]; simpl.
    + rewrite !Qle_bool_iff. split.
      * intros [H C]. split; [exact H|]. exists x, lo, hi. auto.
      * intros [H [x' [lo' [hi' [Ex [A [B C]]]]]]].
        inversion Ex; inversion A; inversion B; subst. auto.
    + split; [intros [_ [H _]]; discriminate|].
      intros [_ [x [lo' [hi' [Ex _]]]]]. discriminate.
  - split.
    + intros [_ [H _]]. simpl in H. discriminate.
    + intros [_ [x [lo [hi [_ [A _]]]]]]. discriminate.
Qed.

Lemma no_missing_column (c : num_col) (data : DataFrame) :
  no_missing c data <-> ~ In None (column c data).
Proof.
  unfold no_missing, column. split.
  - intros H Hin. apply in_map_iff in Hin. destruct Hin as [r [E Hr]].
    now apply (H r Hr).
  - intros H r Hr E. apply H. apply in_map_iff. eauto.
Qed.

Lemma frame_readings_no_missing : no_missing Cavg frame_readings.
Proof.
  intros r Hr. simpl in Hr.
  repeat (destruct Hr as [<-|Hr]; [discriminate|]). contradiction.
Defined.

Lemma frame_readings_nonempty : frame_readings <> [].
Proof. discriminate. Defined.

(** The readings 1, 2, 3, 4, 5, 100, on which no operation rounds: Q1 = 2.25
    and Q3 = 4.75, the bounds are -1.5 and 8.5, and 100 is the one outlier. *)
Example detect_outliers_frame_readings :
  Q1 frame_readings = Some (9 # 4) /\ Q3 frame_readings = Some (19 # 4) /\
  outliers frame_readings = [reading "Delhi" (Some 100)] /\
  clean_data frame_readings = map (fun x => reading "Delhi" (Some x)) [1; 2; 3; 4; 5].
Proof. repeat split; vm_compute; reflexivity. Qed.

(** ** Rows without a value *)

Lemma filter_lengths {A} (f g : A -> bool) (l : list A) :
  (forall x, In x l -> f x && g x = false) ->
  (length (filter f l) + length (filter g l) <= length l)%nat.
Proof.
  induction l as [|x t IH]; intros H; simpl; [lia|].
  assert (Hx := H x (or_introl eq_refl)).
  assert (IH' := IH (fun y Hy => H y (or_intror Hy))).
  destruct (f x), (g x); simpl in *; try discriminate; lia.
Qed.

Lemma filter_lengths_strict {A} (f g : A -> bool) (l : list A) (r : A) :
  (forall x, In x l -> f x && g x = false) ->
  In r l -> f r = false -> g r = false ->
  (length (filter f l) + length (filter g l) < length l)%nat.
Proof.
  induction l as [|x t IH]; intros H Hr Fr Gr; [contradiction|].
  assert (Hx := H x (or_introl eq_refl)).
  assert (Ht : forall y, In y t -> f y && g y = false)
    by (intros y Hy; apply H; now right).
  destruct Hr as [->|Hr].
  - simpl. rewrite Fr, Gr. pose proof (filter_lengths f g t Ht). lia.
  - specialize (IH Ht Hr Fr Gr). simpl.
    destruct (f x), (g x); simpl in *; try discriminate; lia.
Qed.

Lemma outlier_not_clean (data : DataFrame) (r : row) :
  (cmp2 Qltb (pollutant_avg r) (lower data) || cmp2 Qltb (upper data) (pollutant_avg r))
  && (cmp2 Qle_bool (lower data) (pollutant_avg r)
      && cmp2 Qle_bool (pollutant_avg r) (upper data)) = false.
Proof.
  destruct (pollutant_avg r) as [x|], (lower data) as [lo|], (upper data) as [hi|];
    simpl; try reflexivity; rewrite ?andb_false_r; try reflexivity.
  destruct (Qltb x lo) eqn:A, (Qltb hi x) eqn:B, (Qle_bool lo x) eqn:C,
    (Qle_bool x hi) eqn:D; simpl; try reflexivity;
    rewrite ?Qltb_lt in *; rewrite ?Qle_bool_iff in *; lra.
Qed.

(** C10: a row without a [pollutant_avg] value is in neither the outliers
    nor the clean rows, so that on a frame with such a row the two together
    hold fewer rows than the frame. *)
Theorem missing_value_in_neither_partition (data : DataFrame) (r : row) :
  In r data -> pollutant_avg r = None ->
  ~ In r (outliers data) /\ ~ In r (clean_data data) /\
  (length (outliers data) + length (clean_data data) < length data)%nat.
Proof.
  intros Hr E. split; [|split].
  - intros H. apply outliers_In in H. destruct H as [_ [x [lo [hi [Ex _]]]]].
    congruence.
  - intros H. apply clean_data_In in H. destruct H as [_ [x [lo [hi [Ex _]]]]].
    congruence.
  - unfold outliers, clean_data.
    apply (filter_lengths_strict _ _ data r);
      [intros x _; apply outlier_not_clean | exact Hr | |];
      rewrite E; simpl; destruct (lower data), (upper data); reflexivity.
Qed.

Lemma missing_value_in_neither_partition_witness :
  In (reading "Surat" None) frame_cities /\
  pollutant_avg (reading "Surat" None) = None /\
  ~ In (reading "Surat" None) (outliers frame_cities) /\
  ~ In (reading "Surat" None) (clean_data frame_cities) /\
  (length (outliers frame_cities) + length (clean_data frame_cities)
   < length frame_cities)%nat.
Proof.
  assert (H : In (reading "Surat" None) frame_cities).
  { simpl. right. right. right. right. left. reflexivity. }
  split; [exact H|]. split; [reflexivity|].
  exact (missing_value_in_neither_partition frame_cities (reading "Surat" None)
           H eq_refl).
Defined.

(** ** Correlation *)

Lemma complete_pairs_self (x : list (option Q)) :
  complete_pairs x x = map (fun v => (v, v)) (Series.dropna x).
Proof.
  induction x as [|[a|] t IH]; simpl; [reflexivity | now rewrite IH | exact IH].
Qed.

Lemma complete_pairs_swap (x y : list (option Q)) :
  complete_pairs y x = map (fun p => (snd p, fst p)) (complete_pairs x y).
Proof.
  revert y. induction x as [|a tx IH]; intros [|b ty]; simpl; try reflexivity.
  - now destruct b.
  - now destruct a.
  - destruct a, b; simpl; now rewrite IH.
Qed.

Lemma sum_dev_comm (xs ys : list Q) : sum_dev xs ys == sum_dev ys xs.
Proof.
  unfold sum_dev. generalize (Qmean xs) (Qmean ys). intros m1 m2.
  revert ys. induction xs as [|a t IH]; intros [|b u]; simpl; try reflexivity.
  rewrite IH. ring.
Qed.

Lemma sum_dev_self (xs : list Q) :
  sum_dev xs xs
  = Series.Qsum (map (fun v => (v - Qmean xs) * (v - Qmean xs)) xs).
Proof.
  unfold sum_dev. generalize (Qmean xs). intros m.
  induction xs as [|a t IH]; simpl; [reflexivity | now rewrite IH].
Qed.

Lemma Qsquare_nonneg (q : Q) : 0 <= q * q.
Proof.
  unfold Qle, Qmult. simpl. rewrite Z.mul_1_r. apply Z.square_nonneg.
Qed.

Lemma sq_sum_nonneg (m : Q) (xs : list Q) :
  0 <= Series.Qsum (map (fun v => (v - m) * (v - m)) xs).
Proof.
  induction xs as [|a t IH]; simpl; [lra|].
  pose proof (Qsquare_nonneg (a - m)) as H. lra.
Qed.

Lemma sq_sum_zero (m : Q) (xs : list Q) :
  Series.Qsum (map (fun v => (v - m) * (v - m)) xs) == 0 ->
  forall v, In v xs -> v == m.
Proof.
  induction xs as [|a t IH]; simpl; [tauto|]. intros E v Hv.
  pose proof (Qsquare_nonneg (a - m)) as H.
  pose proof (sq_sum_nonneg m t) as Ht.
  assert (Ea : (a - m) * (a - m) == 0) by lra.
  assert (Et : Series.Qsum (map (fun v => (v - m) * (v - m)) t) == 0) by lra.
  destruct Hv as [<-|Hv]; [|now apply IH].
  apply Qmult_integral in Ea. lra.
Qed.

Lemma sq_sum_of_equal (m : Q) (xs : list Q) :
  (forall v, In v xs -> v == m) ->
  Series.Qsum (map (fun v => (v - m) * (v - m)) xs) == 0.
Proof.
  induction xs as [|a t IH]; intros H; simpl; [reflexivity|].
  rewrite IH by (intros v Hv; apply H; now right).
  rewrite (H a) by now left. ring.
Qed.

Lemma Qlen_cons (a : Q) (t : list Q) : Series.Qlen (a :: t) == 1 + Series.Qlen t.
Proof.
  unfold Series.Qlen. simpl length. rewrite Nat2Z.inj_succ, <- Z.add_1_l.
  now rewrite inject_Z_plus.
Qed.

Lemma Qlen_nonneg (xs : list Q) : 0 <= Series.Qlen xs.
Proof.
  unfold Series.Qlen. change 0 with (inject_Z 0). rewrite <- Zle_Qle. lia.
Qed.

Lemma Qsum_of_equal (c : Q) (xs : list Q) :
  (forall v, In v xs -> v == c) -> Series.Qsum xs == Series.Qlen xs * c.
Proof.
  induction xs as [|a t IH]; intros H.
  - unfold Series.Qlen. simpl. ring.
  - rewrite Qlen_cons. simpl. rewrite IH by (intros v Hv; apply H; now right).
    rewrite (H a) by now left. ring.
Qed.

Lemma Qmean_of_equal (c : Q) (xs : list Q) :
  xs <> [] -> (forall v, In v xs -> v == c) -> Qmean xs == c.
Proof.
  intros Hne H. unfold Qmean. rewrite (Qsum_of_equal c xs H).
  destruct xs as [|a t]; [congruence|].
  pose proof (Qlen_cons a t) as L. pose proof (Qlen_nonneg t) as P.
  field. lra.
Qed.

(** The sum of squared deviations of a column is zero exactly when the
    column is constant. *)
Lemma sum_dev_zero_iff (x : list (option Q)) :
  sum_dev (Series.dropna x) (Series.dropna x) == 0 <-> constant x.
Proof.
  rewrite sum_dev_self. split.
  - intros E u v Hu Hv. apply dropna_In in Hu. apply dropna_In in Hv.
    rewrite (sq_sum_zero _ _ E u Hu), (sq_sum_zero _ _ E v Hv). reflexivity.
  - intros C. destruct (Series.dropna x) as [|a t] eqn:D; [reflexivity|].
    assert (H : forall v, In v (a :: t) -> v == a).
    { intros v Hv. apply C; apply dropna_In; rewrite D; [exact Hv | now left]. }
    apply sq_sum_of_equal. intros v Hv.
    rewrite (Qmean_of_equal a (a :: t)); [now apply H | discriminate | exact H].
Qed.

Lemma varies_not_constant (x : list (option Q)) : varies x -> ~ constant x.
Proof.
  intros [u [v [Hu [Hv N]]]] C. apply N. now apply C.
Qed.

Lemma pearson_self (x : list (option Q)) :
  let s := sum_dev (Series.dropna x) (Series.dropna x) in
  pearson x x = if Qeq_bool (s * s) 0 then None
                else Some (Q2R s / sqrt (Q2R (s * s)))%R.
Proof.
  intros s. unfold pearson. rewrite complete_pairs_self.
  destruct (Series.dropna x) as [|a t] eqn:D.
  - reflexivity.
  - rewrite <- D. rewrite !map_map. simpl. rewrite !map_id.
    rewrite D. reflexivity.
Qed.

Lemma pearson_constant (x : list (option Q)) : constant x -> pearson x x = None.
Proof.
  intros C. rewrite pearson_self. apply sum_dev_zero_iff in C.
  assert (E : Qeq_bool (sum_dev (Series.dropna x) (Series.dropna x)
                        * sum_dev (Series.dropna x) (Series.dropna x)) 0 = true).
  { apply Qeq_bool_iff. rewrite C. ring. }
  now rewrite E.
Qed.

Lemma pearson_varies (x : list (option Q)) : varies x -> pearson x x = Some 1%R.
Proof.
  intros V. rewrite pearson_self.
  set (s := sum_dev (Series.dropna x) (Series.dropna x)).
  assert (N : ~ s == 0).
  { intros E. apply (varies_not_constant x V). now apply sum_dev_zero_iff. }
  assert (P : 0 < s).
  { pose proof (sq_sum_nonneg (Qmean (Series.dropna x)) (Series.dropna x)) as G.
    rewrite <- sum_dev_self in G. fold s in G.
    destruct (Qle_lt_or_eq _ _ G) as [L|L]; [exact L|]. exfalso. apply N.
    now symmetry. }
  destruct (Qeq_bool (s * s) 0) eqn:B.
  - apply Qeq_bool_iff in B. apply Qmult_integral in B. tauto.
  - f_equal. apply Qlt_Rlt in P.
    assert (Z0 : Q2R 0 = 0%R) by (unfold Q2R; simpl; Lra.lra).
    rewrite Z0 in P. rewrite Q2R_mult, sqrt_square by Lra.lra.
    field. Lra.lra.
Qed.

Lemma pearson_sym (x y : list (option Q)) : pearson x y = pearson y x.
Proof.
  unfold pearson. rewrite (complete_pairs_swap x y).
  destruct (complete_pairs x y) as [|p t] eqn:D; [reflexivity|].
  rewrite <- D. rewrite !map_map. simpl fst. simpl snd.
  change (map (fun p0 : Q * Q => snd p0)) with (@map (Q * Q) Q snd).
  change (map (fun p0 : Q * Q => fst p0)) with (@map (Q * Q) Q fst).
  set (vx := map fst (complete_pairs x y)).
  set (vy := map snd (complete_pairs x y)).
  rewrite D. simpl map.
  rewrite (Qeq_bool_congr (sum_dev vx vx * sum_dev vy vy)
                          (sum_dev vy vy * sum_dev vx vx) 0) by ring.
  destruct (Qeq_bool (sum_dev vy vy * sum_dev vx vx) 0); [reflexivity|].
  f_equal.
  rewrite (Qeq_eqR _ _ (sum_dev_comm vx vy)).
  now rewrite (Qeq_eqR _ _ (Qmult_comm (sum_dev vx vx) (sum_dev vy vy))).
Qed.



(** The test of [pearson] on the product is the test on the divisor. *)
Lemma pearson_divisor (xs ys : list Q) :
  Qeq_bool (sum_dev xs xs * sum_dev ys ys) 0 = true <->
  sqrt (Q2R (sum_dev xs xs * sum_dev ys ys)) = 0%R.
Proof.
  assert (Z0 : Q2R 0 = 0%R) by (unfold Q2R; simpl; Lra.lra).
  assert (P : 0 <= sum_dev xs xs * sum_dev ys ys).
  { apply Qmult_le_0_compat; rewrite sum_dev_self; apply sq_sum_nonneg. }
  rewrite Qeq_bool_iff. split.
  - intros E. rewrite (Qeq_eqR _ _ E), Z0. apply sqrt_0.
  - intros E. apply eqR_Qeq. rewrite Z0. apply sqrt_eq_0; [|exact E].
    rewrite <- Z0. now apply Qle_Rle.
Qed.

Lemma frame_varying_varies : varies (column Cmin frame_varying).
Proof.
  exists 5, 8. split; [now left|]. split; [right; now left|].
  intros E. discriminate E.
Defined.

Lemma frame_constant_constant : constant (column Cavg frame_constant).
Proof.
  intros u v Hu Hv. simpl in Hu, Hv.
  destruct Hu as [Hu|[Hu|[]]]; destruct Hv as [Hv|[Hv|[]]];
    inversion Hu; inversion Hv; reflexivity.
Defined.


(** ** The examples of the specification *)

Example clean_drop_rows_example :
  let avg x := mkRow (Some "Delhi"%string) PM10 (Some 1) (Some 2) x [] in
  Clean DropRows [avg (Some 1); avg None; avg (Some 3)] = Ok [avg (Some 1); avg (Some 3)].
Proof. reflexivity. Qed.

Example deduplicate_example :
  Deduplicate [reading "a" (Some 2); reading "a" (Some 2); reading "b" (Some 4)]
  = [reading "a" (Some 2); reading "b" (Some 4)].
Proof. reflexivity. Qed.

Example group_aggregate_example :
  let data := [reading "A" (Some 10); reading "A" (Some 20); reading "B" (Some 5)] in
  GroupAggregate data = [("A"%string, Some 15); ("B"%string, Some 5)] /\
  TopN insertion_argsort (GroupAggregate data) 1 = [("A"%string, Some 15)] /\
  TopN insertion_argsort (GroupAggregate data) 0 = [].
Proof. repeat split; vm_compute; reflexivity. Qed.

(** * More of the script *)

(** ** Cleaning: what a fill keeps *)

Lemma Some_inj {A} (a b : A) : Some a = Some b -> a = b.
Proof. congruence. Qed.

Lemma Ok_inj {A} (a b : A) : Ok a = Ok b -> a = b.
Proof. congruence. Qed.

(** Every fill is the row-wise fill with one statistic per column; a
    missing statistic belongs to a column without values. *)
Lemma Clean_fill_form (m : method) (data d' : DataFrame) :
  m <> DropRows -> Clean m data = Ok d' ->
  exists stat : num_col -> option Q,
    d' = map (fill_row stat) data /\
    (forall c, stat c = None -> ~ has_value (column c data)).
Proof.
  intros Hm E. destruct m; [| | |congruence].
  - rewrite Clean_mean in E. apply Ok_inj in E. subst d'.
    eexists. split; [reflexivity|].
    intros c N H. apply mean_defined in H. destruct H as [x Hx]. congruence.
  - rewrite Clean_median in E. apply Ok_inj in E. subst d'.
    eexists. split; [reflexivity|].
    intros c N H. apply median_defined in H. destruct H as [x Hx]. congruence.
  - assert (Hv : forall c, has_value (column c data)).
    { intros c. destruct (has_value_dec (column c data)) as [H|H]; [exact H|].
      rewrite (Clean_mode_raise data c H) in E. discriminate. }
    destruct (stat_of_modes data Hv) as [stat [Hs _]].
    rewrite (Clean_mode_ok data stat Hs) in E. apply Ok_inj in E. subst d'.
    exists (fun c => Some (stat c)). split; [reflexivity|].
    intros c N. discriminate.
Qed.

Lemma fill_row_only_fills (stat : num_col -> option Q) (data : DataFrame) :
  Forall2 only_fills data (map (fill_row stat) data).
Proof.
  induction data as [|r t IH]; simpl; constructor; [|exact IH].
  unfold only_fills. repeat split; try reflexivity.
  intros c v Hv. rewrite get_fill_row, Hv. reflexivity.
Qed.

(** X1: a fill strategy keeps the rows, their order and every cell that
    held a value: the frame it returns has the rows of the frame it was
    given, changed only in pollutant cells that were missing. *)
Theorem fill_only_fills (m : method) (data d' : DataFrame) :
  m <> DropRows -> Clean m data = Ok d' ->
  length d' = length data /\ Forall2 only_fills data d'.
Proof.
  intros Hm E. destruct (Clean_fill_form m data d' Hm E) as [stat [-> _]].
  split; [apply length_map | apply fill_row_only_fills].
Qed.

Lemma fill_only_fills_witness :
  FillMean <> DropRows /\
  exists d', Clean FillMean frame_gaps = Ok d' /\
             length d' = length frame_gaps /\ Forall2 only_fills frame_gaps d'.
Proof.
  split; [discriminate|]. eexists. split; [vm_compute; reflexivity|].
  apply (fill_only_fills FillMean frame_gaps); [discriminate | vm_compute; reflexivity].
Defined.

(** ** Cleaning twice *)

Lemma filter_idem {A} (f : A -> bool) (l : list A) :
  filter f (filter f l) = filter f l.
Proof.
  induction l as [|x t IH]; simpl; [reflexivity|].
  destruct (f x) eqn:E; simpl; [rewrite E; now f_equal | exact IH].
Qed.

Lemma map_fixed {A} (f : A -> A) (l : list A) :
  (forall x, In x l -> f x = x) -> map f l = l.
Proof.
  intros H. rewrite <- (map_id l) at 2. now apply map_ext_in.
Qed.

Lemma fillna_In_none (v : option Q) (s : list (option Q)) :
  In None (map (Series.fillna v) s) -> v = None.
Proof.
  intros H. apply in_map_iff in H. destruct H as [x [E _]].
  destruct x; simpl in E; congruence.
Qed.

(** A statistic of the filled column fills nothing more. *)
Lemma fill_stat_again (F : list (option Q) -> option Q) (data : DataFrame) :
  let d' := map (fill_row (fun c => F (column c data))) data in
  map (fill_row (fun c => F (column c d'))) d' = d'.
Proof.
  intros d'. apply map_fixed. intros r' Hr'. apply fill_row_none.
  intros c E.
  assert (N : In None (column c d')).
  { unfold column. apply in_map_iff. exists r'. auto. }
  unfold d' in N |- *. rewrite column_fill_row in N |- *.
  apply fillna_In_none in N. rewrite N, fillna_none. exact N.
Qed.

Lemma has_value_fill (stat : num_col -> option Q) (c : num_col) (data : DataFrame) :
  has_value (column c data) -> has_value (column c (map (fill_row stat) data)).
Proof.
  intros [v Hv]. exists v. rewrite column_fill_row. apply in_map_iff.
  exists (Some v). auto.
Qed.

(** X3: cleaning is idempotent: on the frame a strategy returns, the same
    strategy returns that frame again (and the mode strategy, which can
    fail, does not fail on it). *)
Theorem clean_idempotent (m : method) (data d' : DataFrame) :
  Clean m data = Ok d' -> Clean m d' = Ok d'.
Proof.
  intros E. destruct m.
  - rewrite Clean_mean in E. apply Ok_inj in E. subst d'.
    rewrite Clean_mean. f_equal. apply (fill_stat_again Series.mean).
  - rewrite Clean_median in E. apply Ok_inj in E. subst d'.
    rewrite Clean_median. f_equal. apply (fill_stat_again Series.median).
  - assert (Hv : forall c, has_value (column c data)).
    { intros c. destruct (has_value_dec (column c data)) as [H|H]; [exact H|].
      rewrite (Clean_mode_raise data c H) in E. discriminate. }
    destruct (stat_of_modes data Hv) as [stat [Hs _]].
    rewrite (Clean_mode_ok data stat Hs) in E. apply Ok_inj in E. subst d'.
    set (d' := map (fill_row (fun c => Some (stat c))) data).
    assert (Hv' : forall c, has_value (column c d'))
      by (intros c; apply has_value_fill, Hv).
    destruct (stat_of_modes d' Hv') as [stat' [Hs' _]].
    rewrite (Clean_mode_ok d' stat' Hs'). f_equal. apply map_fixed.
    intros r' Hr'. apply fill_row_none. intros c N. exfalso.
    apply (no_missing_fill (fun c => Some (stat c)) data c ltac:(discriminate) r' Hr' N).
  - unfold Clean in *. apply Ok_inj in E. subst d'. f_equal. apply filter_idem.
Qed.

Lemma clean_idempotent_witness :
  exists d', Clean FillMode frame_gaps = Ok d' /\ Clean FillMode d' = Ok d'.
Proof.
  eexists. split; [vm_compute; reflexivity|].
  apply (clean_idempotent FillMode frame_gaps). vm_compute. reflexivity.
Defined.

(** ** Duplicates, once more *)

Lemma kept_from_fixed (l seen : DataFrame) :
  ForallOrdPairs (fun a b => row_eqb b a = false) l ->
  (forall x, In x l -> existsb (row_eqb x) seen = false) ->
  kept_from seen l = l.
Proof.
  intros P. revert seen. induction P as [|r t Hr Pt IH]; intros seen H; [reflexivity|].
  rewrite kept_from_cons, (H r (or_introl eq_refl)). f_equal. apply IH.
  intros x Hx. simpl. rewrite Forall_forall in Hr.
  rewrite (Hr x Hx), (H x (or_intror Hx)). reflexivity.
Qed.

Lemma kept_from_length (l seen : DataFrame) :
  (length (kept_from seen l) <= length l)%nat.
Proof.
  revert seen. induction l as [|r t IH]; intros seen; [apply Nat.le_refl|].
  rewrite kept_from_cons. specialize (IH (r :: seen)).
  destruct (existsb (row_eqb r) seen); simpl; lia.
Qed.

(** X4: [drop_duplicates] is idempotent, never returns more rows than it
    was given, and keeps the first row of the frame. *)
Theorem drop_duplicates_idempotent (data : DataFrame) :
  drop_duplicates (drop_duplicates data) = drop_duplicates data /\
  (length (drop_duplicates data) <= length data)%nat /\
  hd_error (drop_duplicates data) = hd_error data.
Proof.
  unfold drop_duplicates. split; [|split].
  - apply kept_from_fixed; [apply kept_from_distinct | reflexivity].
  - apply kept_from_length.
  - destruct data as [|r t]; [reflexivity|]. now rewrite kept_from_cons.
Qed.

Lemma opt_string_eqb_eq (x y : option string) :
  opt_eqb String.eqb x y = true -> x = y.
Proof.
  destruct x, y; simpl; try congruence. rewrite String.eqb_eq. congruence.
Qed.

Lemma row_eqb_city (r r' : row) : row_eqb r r' = true -> city r = city r'.
Proof.
  unfold row_eqb. rewrite !andb_true_iff.
  intros [[[[[H _] _] _] _] _]. now apply opt_string_eqb_eq.
Qed.

Lemma drop_duplicates_cities (data : DataFrame) (k : option string) :
  In k (map city (drop_duplicates data)) <-> In k (map city data).
Proof.
  unfold drop_duplicates. rewrite !in_map_iff. split.
  - intros [r [E Hr]]. exists r. split; [exact E|]. now apply kept_from_In in Hr.
  - intros [r [E Hr]]. destruct (kept_from_covers data [] r Hr) as [S|[r' [Hr' Er]]];
      [discriminate|].
    exists r'. split; [|exact Hr']. apply row_eqb_city in Er. congruence.
Qed.

Lemma sorted_keys_ext (l1 l2 : list string) :
  StronglySorted String_as_OT.lt l1 -> StronglySorted String_as_OT.lt l2 ->
  (forall x, In x l1 <-> In x l2) -> l1 = l2.
Proof.
  intros S1. revert l2. induction S1 as [|a t1 St1 IH H1]; intros l2 S2 E.
  - destruct l2 as [|b t2]; [reflexivity|]. exfalso. apply (E b). now left.
  - destruct S2 as [|b t2 St2 H2].
    + exfalso. apply (E a). now left.
    + rewrite Forall_forall in H1, H2.
      assert (Eab : a = b).
      { destruct (proj1 (E a) (or_introl eq_refl)) as [Hb|Hb]; [now symmetry|].
        destruct (proj2 (E b) (or_introl eq_refl)) as [Ha|Ha]; [exact Ha|].
        exfalso. apply (String_as_OT.lt_not_eq a a); [|reflexivity].
        eapply String_as_OT.lt_trans; [apply H1, Ha | apply H2, Hb]. }
      subst b. f_equal. apply IH; [exact St2|]. intros x. split; intros Hx.
      * destruct (proj1 (E x) (or_intror Hx)) as [Hb|Hb]; [|exact Hb].
        subst x. exfalso. apply (String_as_OT.lt_not_eq a a); [|reflexivity].
        now apply H1.
      * destruct (proj2 (E x) (or_intror Hx)) as [Hb|Hb]; [|exact Hb].
        subst x. exfalso. apply (String_as_OT.lt_not_eq a a); [|reflexivity].
        now apply H2.
Qed.

Lemma group_keys_ext (d1 d2 : DataFrame) :
  (forall k, In (Some k) (map city d1) <-> In (Some k) (map city d2)) ->
  group_keys d1 = group_keys d2.
Proof.
  intros H. apply sorted_keys_ext; try apply group_keys_sorted.
  intros k. rewrite !group_keys_In. apply H.
Qed.

Lemma fill_row_cities (stat : num_col -> option Q) (data : DataFrame) :
  map city (map (fill_row stat) data) = map city data.
Proof. rewrite map_map. reflexivity. Qed.

(** X5: the frame the tabs work on has no city that the upload has not,
    and after a fill strategy it has every city of the upload: filling and
    removing duplicates change no label of the per-city charts. *)
Theorem prepare_cities (m : method) (data d : DataFrame) :
  prepare m data = Ok d ->
  (forall k, In k (map fst (GroupAggregate d)) -> In k (map fst (GroupAggregate data))) /\
  (m <> DropRows -> map fst (GroupAggregate d) = map fst (GroupAggregate data)).
Proof.
  unfold prepare. destruct (Clean m data) as [d1|e] eqn:E; simpl; [|discriminate].
  intros H. apply Ok_inj in H. subst d. rewrite !GroupAggregate_keys. split.
  - intros k. rewrite !group_keys_In, drop_duplicates_cities.
    assert (C : m = DropRows \/ m <> DropRows)
      by (destruct m; [right|right|right|left]; congruence).
    destruct C as [->|Hm].
    + unfold Clean in E. apply Ok_inj in E. subst d1. unfold dropna.
      rewrite !in_map_iff. intros [r [Er Hr]]. apply filter_In in Hr.
      exists r. tauto.
    + destruct (Clean_fill_form m data d1 Hm E) as [stat [-> _]].
      now rewrite fill_row_cities.
  - intros Hm. apply group_keys_ext. intros k. rewrite drop_duplicates_cities.
    destruct (Clean_fill_form _ _ _ Hm E) as [stat [-> _]].
    now rewrite fill_row_cities.
Qed.

Lemma prepare_cities_witness :
  exists d,
    prepare FillMean frame_cities = Ok d /\
    (forall k, In k (map fst (GroupAggregate d)) ->
               In k (map fst (GroupAggregate frame_cities))) /\
    (FillMean <> DropRows ->
     map fst (GroupAggregate d) = map fst (GroupAggregate frame_cities)).
Proof.
  eexists. split; [vm_compute; reflexivity|].
  apply (prepare_cities FillMean frame_cities). vm_compute. reflexivity.
Defined.

(** ** Outliers: the two filters together, and the order of the bounds *)

Lemma clean_is_not_outlier (x lo hi : Q) :
  Qle_bool lo x && Qle_bool x hi = negb (Qltb x lo || Qltb hi x).
Proof.
  unfold Qltb. now rewrite negb_orb, !negb_involutive.
Qed.

Lemma bounds_exist (data : DataFrame) :
  data <> [] -> no_missing Cavg data ->
  exists q1 q3,
    Q1 data = Some q1 /\ Q3 data = Some q3 /\
    q1 == linear_percentile_spec (Series.sort (Series.dropna (column Cavg data))) 25 /\
    q3 == linear_percentile_spec (Series.sort (Series.dropna (column Cavg data))) 75.
Proof.
  intros Hne Hna. apply no_missing_column in Hna.
  assert (Hc : column Cavg data <> []) by (destruct data; [congruence | discriminate]).
  destruct (percentile_linear _ 25 Hc Hna) as [q1 [E1 L1]].
  destruct (percentile_linear _ 75 Hc Hna) as [q3 [E3 L3]].
  exists q1, q3. auto.
Qed.

Lemma outliers_clean_perm (data : DataFrame) :
  data <> [] -> no_missing Cavg data ->
  Permutation (outliers data ++ clean_data data) data.
Proof.
  intros Hne Hna.
  destruct (bounds_exist data Hne Hna) as [q1 [q3 [E1 [E3 _]]]].
  destruct (bounds_formula data q1 q3 E1 E3) as [El Eu].
  unfold outliers, clean_data. rewrite El, Eu.
  set (f := fun r => cmp2 Qltb (pollutant_avg r) (Some (q1 - (3 # 2) * (q3 - q1)))
                     || cmp2 Qltb (Some (q3 + (3 # 2) * (q3 - q1))) (pollutant_avg r)).
  rewrite <- (filter_split_perm f data) at 3.
  apply Permutation_app; [reflexivity|].
  rewrite (filter_ext_in _ (fun r => negb (f r))); [reflexivity|].
  intros r Hr. specialize (Hna r Hr). simpl in Hna. unfold f.
  destruct (pollutant_avg r) as [x|]; [|congruence].
  simpl. apply clean_is_not_outlier.
Qed.

(** X6: on a frame with rows and no missing [pollutant_avg], the outliers
    and the clean rows together are the rows of the frame, each row on one
    side only. *)
Theorem outliers_and_clean_partition (data : DataFrame) :
  data <> [] -> no_missing Cavg data ->
  Permutation (outliers data ++ clean_data data) data /\
  (length (outliers data) + length (clean_data data) = length data)%nat /\
  (forall r, ~ (In r (outliers data) /\ In r (clean_data data))).
Proof.
  intros Hne Hna. pose proof (outliers_clean_perm data Hne Hna) as P.
  split; [exact P|]. split.
  - rewrite <- (Permutation_length P). now rewrite length_app.
  - intros r [Ho Hc]. apply outliers_In in Ho. apply clean_data_In in Hc.
    destruct Ho as [_ [x [lo [hi [Ex [El [Eu C]]]]]]].
    destruct Hc as [_ [x' [lo' [hi' [Ex' [El' [Eu' [C1 C2]]]]]]]].
    rewrite Ex in Ex'. rewrite El in El'. rewrite Eu in Eu'.
    apply Some_inj in Ex'. apply Some_inj in El'. apply Some_inj in Eu'.
    subst x' lo' hi'. lra.
Qed.

Lemma outliers_and_clean_partition_witness :
  frame_readings <> [] /\ no_missing Cavg frame_readings /\
  Permutation (outliers frame_readings ++ clean_data frame_readings) frame_readings /\
  (length (outliers frame_readings) + length (clean_data frame_readings)
   = length frame_readings)%nat /\
  (forall r, ~ (In r (outliers frame_readings) /\ In r (clean_data frame_readings))).
Proof.
  split; [exact frame_readings_nonempty|].
  split; [exact frame_readings_no_missing|].
  exact (outliers_and_clean_partition frame_readings
           frame_readings_nonempty frame_readings_no_missing).
Defined.

Lemma sorted_nth_le (arr : list Q) (i j : nat) :
  StronglySorted Qle arr -> (i <= j)%nat -> (j < length arr)%nat ->
  nth i arr 0 <= nth j arr 0.
Proof.
  intros S Hij Hj. destruct (Nat.eq_dec i j) as [->|N]; [lra|].
  apply (StronglySorted_nth Qle arr 0 S); lia.
Qed.

(** The interpolated value lies between the two neighbours it is taken
    from. *)
Lemma linear_percentile_between (arr : list Q) (p : Z) :
  StronglySorted Qle arr -> arr <> [] -> (0 <= p <= 100)%Z ->
  let n := Z.of_nat (length arr) in
  let k := ((n - 1) * p / 100)%Z in
  (0 <= k <= n - 1)%Z /\
  nth (Z.to_nat k) arr 0 <= linear_percentile_spec arr p /\
  linear_percentile_spec arr p <= nth (Z.to_nat (Z.min (k + 1) (n - 1))) arr 0.
Proof.
  intros S Hne Hp n k.
  assert (Hn : (1 <= n)%Z) by (unfold n; destruct arr; [congruence | simpl length; lia]).
  assert (Hk : (0 <= k <= n - 1)%Z).
  { unfold k. split.
    - apply Z.div_pos; nia.
    - apply Z.div_le_upper_bound; nia. }
  split; [exact Hk|].
  unfold linear_percentile_spec. fold n. fold k.
  set (lo := nth (Z.to_nat k) arr 0).
  set (hi := nth (Z.to_nat (Z.min (k + 1) (n - 1))) arr 0).
  pose proof (Z.mod_pos_bound ((n - 1) * p) 100 ltac:(lia)) as Hr.
  set (r := (((n - 1) * p) mod 100)%Z) in *.
  assert (F0 : 0 <= r # 100) by (unfold Qle; simpl; lia).
  assert (F1 : r # 100 <= 1) by (unfold Qle; simpl; lia).
  assert (L : lo <= hi).
  { unfold lo, hi. apply sorted_nth_le; [exact S | lia | unfold n in *; lia]. }
  split; nra.
Qed.

(** A larger percentile is a larger value. *)
Lemma linear_percentile_mono (arr : list Q) (p p' : Z) :
  StronglySorted Qle arr -> arr <> [] -> (0 <= p <= p')%Z -> (p' <= 100)%Z ->
  linear_percentile_spec arr p <= linear_percentile_spec arr p'.
Proof.
  intros S Hne Hp Hp'.
  destruct (linear_percentile_between arr p S Hne ltac:(lia)) as [Hk [A B]].
  destruct (linear_percentile_between arr p' S Hne ltac:(lia)) as [Hk' [A' B']].
  set (n := Z.of_nat (length arr)) in *.
  set (k := ((n - 1) * p / 100)%Z) in *.
  set (k' := ((n - 1) * p' / 100)%Z) in *.
  assert (Hn : (1 <= n)%Z) by lia.
  assert (Hkk : (k <= k')%Z) by (unfold k, k'; apply Z.div_le_mono; nia).
  destruct (Z.eq_dec k k') as [E|N].
  - unfold linear_percentile_spec. fold n. fold k. fold k'. rewrite <- E.
    set (lo := nth (Z.to_nat k) arr 0).
    set (hi := nth (Z.to_nat (Z.min (k + 1) (n - 1))) arr 0).
    assert (L : lo <= hi).
    { unfold lo, hi. apply sorted_nth_le; [exact S | lia | unfold n in *; lia]. }
    pose proof (Z.div_mod ((n - 1) * p) 100 ltac:(lia)) as D.
    pose proof (Z.div_mod ((n - 1) * p') 100 ltac:(lia)) as D'.
    fold k in D. fold k' in D'. rewrite <- E in D'.
    assert (R : (((n - 1) * p) mod 100 <= ((n - 1) * p') mod 100)%Z) by nia.
    assert (F : ((n - 1) * p) mod 100 # 100 <= ((n - 1) * p') mod 100 # 100)
      by (unfold Qle; simpl; lia).
    nra.
  - assert (M : nth (Z.to_nat (Z.min (k + 1) (n - 1))) arr 0
                <= nth (Z.to_nat k') arr 0).
    { apply sorted_nth_le; [exact S | lia | unfold n in *; lia]. }
    lra.
Qed.

Lemma linear_percentile_within (s : list (option Q)) (p : Z) :
  has_value s -> (0 <= p <= 100)%Z ->
  within s (linear_percentile_spec (Series.sort (Series.dropna s)) p).
Proof.
  intros [v Hv] Hp. set (arr := Series.sort (Series.dropna s)).
  assert (Hne : arr <> []).
  { intros E. apply dropna_In in Hv.
    apply (Permutation_in _ (Permutation_sym (sort_perm _))) in Hv.
    fold arr in Hv. rewrite E in Hv. contradiction. }
  pose proof (sort_sorted (Series.dropna s)) as S. fold arr in S.
  destruct (linear_percentile_between arr p S Hne Hp) as [Hk [A B]].
  assert (Hn : (0 < length arr)%nat) by (destruct arr; [congruence | simpl; lia]).
  assert (I : forall i, (i < length arr)%nat -> In (Some (nth i arr 0)) s).
  { intros i Hi. apply dropna_In. apply (Permutation_in _ (sort_perm _)).
    now apply nth_In. }
  exists (nth 0 arr 0), (nth (length arr - 1) arr 0).
  split; [apply I; lia|]. split; [apply I; lia|]. split.
  - eapply Qle_trans; [|exact A]. apply sorted_nth_le; [exact S | lia | lia].
  - eapply Qle_trans; [exact B|]. apply sorted_nth_le; [exact S | lia | lia].
Qed.

(** X7: on a frame with rows and no missing [pollutant_avg] the bounds are
    in order, [lower <= Q1 <= Q3 <= upper], both quartiles lie between two
    values of the column, and a row whose value lies between the quartiles
    is a clean row. *)
Theorem bounds_in_order (data : DataFrame) :
  data <> [] -> no_missing Cavg data ->
  exists q1 q3 lo hi,
    Q1 data = Some q1 /\ Q3 data = Some q3 /\
    lower data = Some lo /\ upper data = Some hi /\
    lo <= q1 /\ q1 <= q3 /\ q3 <= hi /\
    within (column Cavg data) q1 /\ within (column Cavg data) q3 /\
    (forall r x, In r data -> pollutant_avg r = Some x ->
                 q1 <= x -> x <= q3 -> In r (clean_data data)).
Proof.
  intros Hne Hna. destruct (bounds_exist data Hne Hna) as [q1 [q3 [E1 [E3 [L1 L3]]]]].
  destruct (bounds_formula data q1 q3 E1 E3) as [El Eu].
  assert (Hv : has_value (column Cavg data)).
  { destruct data as [|r t]; [congruence|].
    pose proof (Hna r (or_introl eq_refl)) as N. simpl in N.
    destruct (pollutant_avg r) as [x|] eqn:Ex; [|congruence].
    exists x. left. exact Ex. }
  set (arr := Series.sort (Series.dropna (column Cavg data))) in *.
  assert (Hne' : arr <> []).
  { destruct Hv as [v Hv]. intros E. apply dropna_In in Hv.
    apply (Permutation_in _ (Permutation_sym (sort_perm _))) in Hv.
    fold arr in Hv. rewrite E in Hv. contradiction. }
  assert (M : q1 <= q3).
  { rewrite L1, L3. apply linear_percentile_mono;
      [apply sort_sorted | exact Hne' | lia | lia]. }
  exists q1, q3, (q1 - (3 # 2) * (q3 - q1)), (q3 + (3 # 2) * (q3 - q1)).
  split; [exact E1|]. split; [exact E3|]. split; [exact El|]. split; [exact Eu|].
  split; [lra|]. split; [exact M|]. split; [lra|].
  assert (W : forall p q, (0 <= p <= 100)%Z -> q == linear_percentile_spec arr p ->
                          within (column Cavg data) q).
  { intros p q Hp Eq.
    destruct (linear_percentile_within (column Cavg data) p Hv Hp)
      as [a [b [Ha [Hb [A B]]]]].
    fold arr in A, B. exists a, b. rewrite Eq. auto. }
  split; [apply (W 25%Z); [lia | exact L1]|].
  split; [apply (W 75%Z); [lia | exact L3]|].
  intros r x Hr Ex A B. apply clean_data_In. split; [exact Hr|].
  exists x, (q1 - (3 # 2) * (q3 - q1)), (q3 + (3 # 2) * (q3 - q1)).
  split; [exact Ex|]. split; [exact El|]. split; [exact Eu|]. split; lra.
Qed.

Lemma bounds_in_order_witness :
  frame_readings <> [] /\ no_missing Cavg frame_readings /\
  exists q1 q3 lo hi,
    Q1 frame_readings = Some q1 /\ Q3 frame_readings = Some q3 /\
    lower frame_readings = Some lo /\ upper frame_readings = Some hi /\
    lo <= q1 /\ q1 <= q3 /\ q3 <= hi /\
    within (column Cavg frame_readings) q1 /\ within (column Cavg frame_readings) q3 /\
    (forall r x, In r frame_readings -> pollutant_avg r = Some x ->
                 q1 <= x -> x <= q3 -> In r (clean_data frame_readings)).
Proof.
  split; [exact frame_readings_nonempty|].
  split; [exact frame_readings_no_missing|].
  exact (bounds_in_order frame_readings
           frame_readings_nonempty frame_readings_no_missing).
Defined.

(** ** The frame of the tabs *)

Lemma missing_in_zero {A} (col : row -> option A) (data : DataFrame) :
  missing_in col data = 0%nat <-> forall r, In r data -> col r <> None.
Proof.
  unfold missing_in. split.
  - intros E r Hr N.
    assert (In r (filter (fun r => Series.isna (col r)) data)) as H
      by (apply filter_In; split; [exact Hr | now rewrite N]).
    destruct (filter (fun r => Series.isna (col r)) data); [contradiction | discriminate].
  - intros H. destruct (filter (fun r => Series.isna (col r)) data) as [|r t] eqn:E;
      [reflexivity|].
    assert (In r (filter (fun r => Series.isna (col r)) data)) as Hr
      by (rewrite E; now left).
    apply filter_In in Hr. destruct Hr as [Hr N]. specialize (H r Hr).
    destruct (col r); [discriminate | congruence].
Qed.

Lemma prepare_rows (m : method) (data d : DataFrame) :
  prepare m data = Ok d ->
  exists d1, Clean m data = Ok d1 /\ d = drop_duplicates d1 /\
             forall r, In r d -> In r d1.
Proof.
  unfold prepare. destruct (Clean m data) as [d1|e]; simpl; [|discriminate].
  intros E. apply Ok_inj in E. subst d. exists d1.
  split; [reflexivity|]. split; [reflexivity|].
  intros r Hr. unfold drop_duplicates in Hr. now apply kept_from_In in Hr.
Qed.

(** X8: after the drop-rows strategy and [drop_duplicates], the overview
    counts no missing value in any column: not in [city], [pollutant_id] or
    a pollutant column, and not in a further column of the sheet. *)
Theorem prepare_drop_rows_overview (data d : DataFrame) :
  prepare DropRows data = Ok d ->
  missing_in city d = 0%nat /\ missing_in pollutant_id d = 0%nat /\
  (forall c, missing_in (get c) d = 0%nat) /\
  (forall j, (forall r, In r d -> (j < length (extra r))%nat) ->
             missing_in (extra_cell j) d = 0%nat).
Proof.
  intros E. destruct (prepare_rows _ _ _ E) as [d1 [E1 [_ Sub]]].
  unfold Clean in E1. apply Ok_inj in E1. subst d1.
  assert (C : forall r, In r d -> complete r).
  { intros r Hr. apply Sub in Hr. unfold dropna in Hr. apply filter_In in Hr.
    destruct Hr as [_ Hr]. apply negb_true_iff in Hr. now apply row_hasna_complete. }
  split; [|split; [|split]].
  - apply missing_in_zero. intros r Hr. apply (C r Hr).
  - apply missing_in_zero. intros r Hr. apply (C r Hr).
  - intros c. apply missing_in_zero. intros r Hr.
    destruct (C r Hr) as [_ [_ [H1 [H2 [H3 _]]]]]. now destruct c.
  - intros j Hj. apply missing_in_zero. intros r Hr N.
    destruct (C r Hr) as [_ [_ [_ [_ [_ H]]]]]. apply H.
    unfold extra_cell in N. rewrite <- N. apply nth_In. now apply Hj.
Qed.

Lemma prepare_drop_rows_overview_witness :
  exists d,
    prepare DropRows frame_gaps = Ok d /\
    missing_in city d = 0%nat /\ missing_in pollutant_id d = 0%nat /\
    (forall c, missing_in (get c) d = 0%nat) /\
    (forall j, (forall r, In r d -> (j < length (extra r))%nat) ->
               missing_in (extra_cell j) d = 0%nat).
Proof.
  eexists. split; [vm_compute; reflexivity|].
  apply (prepare_drop_rows_overview frame_gaps). vm_compute. reflexivity.
Defined.

(** X9: when the drop-rows strategy is chosen, or a fill strategy on an
    upload whose [pollutant_avg] column holds a value, the frame of the
    tabs has no missing [pollutant_avg], and (if it has rows) its outliers
    and clean rows together are its rows. *)
Theorem prepare_partition (m : method) (data d : DataFrame) :
  prepare m data = Ok d ->
  m = DropRows \/ has_value (column Cavg data) ->
  no_missing Cavg d /\
  (d <> [] -> Permutation (outliers d ++ clean_data d) d).
Proof.
  intros E H. destruct (prepare_rows _ _ _ E) as [d1 [E1 [_ Sub]]].
  assert (N : no_missing Cavg d).
  { intros r Hr. apply Sub in Hr.
    assert (C : m = DropRows \/ m <> DropRows)
      by (destruct m; [right|right|right|left]; congruence).
    destruct C as [->|Hm].
    - unfold Clean in E1. apply Ok_inj in E1. subst d1. unfold dropna in Hr.
      apply filter_In in Hr. destruct Hr as [_ Hr]. apply negb_true_iff in Hr.
      apply row_hasna_complete in Hr. apply Hr.
    - destruct H as [->|Hv]; [congruence|].
      destruct (Clean_fill_form m data d1 Hm E1) as [stat [-> Hs]].
      apply (no_missing_fill stat data Cavg); [|exact Hr].
      intros Es. now apply (Hs Cavg Es). }
  split; [exact N|]. intros Hne. now apply outliers_clean_perm.
Qed.

Lemma prepare_partition_witness :
  (FillMean = DropRows \/ has_value (column Cavg frame_cities)) /\
  exists d,
    prepare FillMean frame_cities = Ok d /\
    no_missing Cavg d /\
    (d <> [] -> Permutation (outliers d ++ clean_data d) d).
Proof.
  assert (H : FillMean = DropRows \/ has_value (column Cavg frame_cities)).
  { right. exists 10. left. reflexivity. }
  split; [exact H|]. eexists. split; [vm_compute; reflexivity|].
  apply (prepare_partition FillMean frame_cities); [vm_compute; reflexivity | exact H].
Defined.

(** ** Sorting by descending value, whatever the order of equal values *)

Lemma nargsort_descending (argsort : list Q -> list nat) (items : list (option Q)) :
  argsort_of (rev (Series.dropna items)) (argsort (rev (Series.dropna items))) ->
  Permutation (nargsort argsort items) (seq 0 (length items)) /\
  StronglySorted (descending_at items) (nargsort argsort items).
Proof.
  intros [HP HS]. split; [now apply nargsort_perm|].
  unfold nargsort.
  set (non_nans := rev (Series.dropna items)) in *.
  set (idx := rev (present_idx items)).
  assert (Hin : forall a, In a (argsort non_nans) -> (a < length non_nans)%nat).
  { intros a Ha. apply (Permutation_in _ HP) in Ha. apply in_seq in Ha. lia. }
  apply StronglySorted_app.
  - apply (StronglySorted_rev (fun x y => descending_at items y x)).
    apply (StronglySorted_map_In
             (fun a b => nth a non_nans 0 <= nth b non_nans 0)); [|exact HS].
    intros a b Ha Hb R. apply Hin in Ha. apply Hin in Hb.
    unfold descending_at, idx.
    now rewrite (non_nan_idx_value items a Ha), (non_nan_idx_value items b Hb).
  - rewrite <- (map_id (absent_idx items)).
    apply (StronglySorted_map_In lt);
      [|unfold absent_idx; apply StronglySorted_filter, seq_sorted].
    intros i j Hi Hj Hij. apply absent_isna in Hi. apply absent_isna in Hj.
    unfold descending_at. now rewrite (proj1 Hi), (proj1 Hj).
  - intros x y Hx Hy. apply (proj2 (in_rev _ _)) in Hx. apply in_map_iff in Hx.
    destruct Hx as [a [<- Ha]]. apply absent_isna in Hy.
    unfold descending_at, idx.
    now rewrite (non_nan_idx_value items a (Hin a Ha)), (proj1 Hy).
Qed.

(** ** Counting by label *)

Section Unique.
Context {A : Type} (eqb : A -> A -> bool).
Hypothesis eqb_eq : forall a b, eqb a b = true <-> a = b.

Lemma unique_by_In (l : list A) (x : A) : In x (unique_by eqb l) <-> In x l.
Proof.
  induction l as [|a t IH]; simpl; [tauto|]. rewrite filter_In, IH. split.
  - tauto.
  - intros [H|H]; [now left|]. destruct (eqb a x) eqn:E.
    + left. now apply eqb_eq.
    + right. auto.
Qed.

Lemma unique_by_NoDup (l : list A) : NoDup (unique_by eqb l).
Proof.
  induction l as [|a t IH]; simpl; constructor.
  - intros H. apply filter_In in H. destruct H as [_ H].
    rewrite (proj2 (eqb_eq a a) eq_refl) in H. discriminate.
  - now apply NoDup_filter.
Qed.

Lemma filter_eqb_absent (a : A) (L : list A) :
  ~ In a L -> filter (eqb a) L = [].
Proof.
  intros N. induction L as [|b t IH]; [reflexivity|]. simpl.
  destruct (eqb a b) eqn:E.
  - apply eqb_eq in E. subst b. exfalso. apply N. now left.
  - apply IH. intros H. apply N. now right.
Qed.

Lemma filter_eqb_once (a : A) (L : list A) :
  NoDup L -> In a L -> length (filter (eqb a) L) = 1%nat.
Proof.
  induction 1 as [|b t Nb Nt IH]; [contradiction|]. intros [->|H]; simpl.
  - rewrite (proj2 (eqb_eq a a) eq_refl). simpl.
    now rewrite (filter_eqb_absent a t Nb).
  - destruct (eqb a b) eqn:E; [|now apply IH].
    apply eqb_eq in E. subst b. contradiction.
Qed.

End Unique.

Lemma list_sum_perm (l l' : list nat) : Permutation l l' -> list_sum l = list_sum l'.
Proof.
  induction 1; simpl; lia.
Qed.

(** Counting the matches label by label or row by row gives the same
    total. *)
Lemma count_swap {R K} (m : R -> K -> bool) (l : list R) (L : list K) :
  list_sum (map (fun p => length (filter (fun r => m r p) l)) L)
  = list_sum (map (fun r => length (filter (fun p => m r p) L)) l).
Proof.
  induction l as [|a t IH]; simpl.
  - induction L as [|p L IHL]; simpl; [reflexivity | exact IHL].
  - rewrite <- IH. clear IH. induction L as [|p L IHL]; simpl; [reflexivity|].
    destruct (m a p); simpl; lia.
Qed.

Lemma list_sum_ones {R} (f : R -> nat) (g : R -> bool) (l : list R) :
  (forall r, In r l -> f r = if g r then 1%nat else 0%nat) ->
  list_sum (map f l) = length (filter g l).
Proof.
  induction l as [|a t IH]; intros H; simpl; [reflexivity|].
  rewrite (H a (or_introl eq_refl)), IH by (intros r Hr; apply H; now right).
  now destruct (g a).
Qed.

Lemma dropna_length {A} (s : list (option A)) :
  (length (Series.dropna s) + length (filter Series.isna s) = length s)%nat.
Proof.
  induction s as [|[a|] t IH]; simpl; lia.
Qed.

Lemma count_ids (k : string) (data : DataFrame) :
  length (filter (String.eqb k) (Series.dropna (map pollutant_id data)))
  = length (filter (fun r => opt_eqb String.eqb (pollutant_id r) (Some k)) data).
Proof.
  induction data as [|r t IH]; simpl; [reflexivity|].
  destruct (pollutant_id r) as [x|]; simpl; [|exact IH].
  rewrite (String.eqb_sym k x). destruct (String.eqb x k); simpl; now rewrite IH.
Qed.

Lemma count_table_sum (data : DataFrame) :
  list_sum (map snd (count_table data))
  = length (Series.dropna (map pollutant_id data)).
Proof.
  unfold count_table. set (ids := Series.dropna (map pollutant_id data)).
  rewrite map_map.
  change (list_sum (map (fun p => length (filter (fun r => String.eqb p r) ids))
                        (unique_by String.eqb ids)) = length ids).
  rewrite (count_swap (fun x k => String.eqb k x) ids (unique_by String.eqb ids)).
  rewrite (list_sum_ones _ (fun _ => true)).
  - clear. induction ids; simpl; congruence.
  - intros x Hx.
    rewrite (filter_ext (fun p => String.eqb p x) (String.eqb x))
      by (intros p; apply String.eqb_sym).
    apply (filter_eqb_once String.eqb String.eqb_eq).
    + apply (unique_by_NoDup String.eqb String.eqb_eq).
    + now apply (unique_by_In String.eqb String.eqb_eq).
Qed.

Lemma count_items_nth (data : DataFrame) (i : nat) :
  (i < length (count_table data))%nat ->
  nth i (count_items data) None
  = Some (inject_Z (Z.of_nat (snd (nth i (count_table data) (EmptyString, 0%nat))))).
Proof.
  intros H. unfold count_items.
  rewrite (nth_indep _ None (Some (inject_Z (Z.of_nat (snd (EmptyString, 0%nat))))))
    by now rewrite length_map.
  apply (map_nth (fun p => Some (inject_Z (Z.of_nat (snd p))))).
Qed.

(** X10: over any [argsort], the table of the pie chart has one entry per
    pollutant type that occurs in the frame, its count the number of rows
    of that type; the counts add up to the rows that have a type, and the
    entries come by descending count. *)
Theorem type_counts_table (argsort : list Q -> list nat) (data : DataFrame) :
  argsort_of (rev (Series.dropna (count_items data)))
             (argsort (rev (Series.dropna (count_items data)))) ->
  NoDup (map fst (type_counts argsort data)) /\
  (forall k n, In (k, n) (type_counts argsort data) <->
     In (Some k) (map pollutant_id data) /\
     n = length (filter (fun r => opt_eqb String.eqb (pollutant_id r) (Some k)) data)) /\
  (list_sum (map snd (type_counts argsort data)) + missing_in pollutant_id data
   = length data)%nat /\
  StronglySorted (fun a b => (snd b <= snd a)%nat) (type_counts argsort data).
Proof.
  intros H. destruct (nargsort_descending argsort (count_items data) H) as [P S].
  assert (L : length (count_items data) = length (count_table data))
    by apply length_map.
  assert (PT : Permutation (type_counts argsort data) (count_table data)).
  { unfold type_counts. rewrite P, L. now rewrite map_nth_seq. }
  split; [|split; [|split]].
  - rewrite (Permutation_map fst PT). unfold count_table. rewrite map_map. simpl.
    rewrite map_id. apply (unique_by_NoDup String.eqb String.eqb_eq).
  - intros k n. split.
    + intros Hin. apply (Permutation_in _ PT) in Hin. unfold count_table in Hin.
      apply in_map_iff in Hin. destruct Hin as [k' [E Hk]].
      injection E as -> <-.
      apply (proj1 (unique_by_In String.eqb String.eqb_eq _ _)) in Hk.
      apply dropna_In in Hk.
      split; [exact Hk | apply count_ids].
    + intros [Hk ->]. apply (Permutation_in _ (Permutation_sym PT)).
      unfold count_table. apply in_map_iff. exists k. split.
      * f_equal. apply count_ids.
      * apply (unique_by_In String.eqb String.eqb_eq). now apply dropna_In.
  - rewrite (list_sum_perm _ _ (Permutation_map snd PT)), count_table_sum.
    unfold missing_in.
    assert (M : length (filter (fun r => Series.isna (pollutant_id r)) data)
                = length (filter Series.isna (map pollutant_id data))).
    { clear. induction data as [|r t IH]; simpl; [reflexivity|].
      destruct (Series.isna (pollutant_id r)); simpl; now rewrite IH. }
    rewrite M, dropna_length. apply length_map.
  - unfold type_counts.
    apply (StronglySorted_map_In (descending_at (count_items data))); [|exact S].
    intros i j Hi Hj D.
    apply (Permutation_in _ P) in Hi. apply (Permutation_in _ P) in Hj.
    apply in_seq in Hi. apply in_seq in Hj. rewrite L in Hi, Hj.
    unfold descending_at in D.
    rewrite (count_items_nth data i), (count_items_nth data j) in D by lia.
    rewrite <- Zle_Qle in D. lia.
Qed.

Lemma StronglySorted_weaken {A} (R R' : A -> A -> Prop) (l : list A) :
  (forall a b, R a b -> R' a b) -> StronglySorted R l -> StronglySorted R' l.
Proof.
  intros H S. rewrite <- (map_id l). apply (StronglySorted_map_In R); [|exact S].
  intros a b _ _. apply H.
Qed.

Lemma insertion_argsort_sorts (xs : list Q) : argsort_of xs (insertion_argsort xs).
Proof.
  destruct (insertion_argsort_stable xs) as [P S]. split; [exact P|].
  revert S. apply StronglySorted_weaken. intros a b [L|[E _]]; lra.
Qed.

Lemma type_counts_table_witness :
  NoDup (map fst (type_counts insertion_argsort frame_types)) /\
  (forall k n, In (k, n) (type_counts insertion_argsort frame_types) <->
     In (Some k) (map pollutant_id frame_types) /\
     n = length (filter (fun r => opt_eqb String.eqb (pollutant_id r) (Some k))
                        frame_types)) /\
  (list_sum (map snd (type_counts insertion_argsort frame_types))
   + missing_in pollutant_id frame_types = length frame_types)%nat /\
  StronglySorted (fun a b => (snd b <= snd a)%nat)
                 (type_counts insertion_argsort frame_types).
Proof.
  apply (type_counts_table insertion_argsort frame_types).
  apply insertion_argsort_sorts.
Defined.

(** The pie chart of [frame_types]: three of the five typed rows are PM10. *)
Example type_counts_frame_types :
  type_counts insertion_argsort frame_types
  = [ ("PM10"%string, 3%nat); ("NO2"%string, 1%nat); ("SO2"%string, 1%nat) ].
Proof. vm_compute. reflexivity. Qed.

(** ** The scatter of the top 20 cities *)

Lemma StronglySorted_lt_NoDup (l : list string) :
  StronglySorted String_as_OT.lt l -> NoDup l.
Proof.
  induction 1 as [|a t St IH H]; constructor; [|exact IH].
  intros Hin. rewrite Forall_forall in H.
  apply (String_as_OT.lt_not_eq a a); [now apply H | reflexivity].
Qed.

Lemma NoDup_firstn {A} (n : nat) (l : list A) : NoDup l -> NoDup (firstn n l).
Proof.
  intros N. rewrite <- (firstn_skipn n l) in N. now apply NoDup_app_remove_r in N.
Qed.

Lemma firstn_incl {A} (n : nat) (l : list A) (x : A) : In x (firstn n l) -> In x l.
Proof.
  intros H. rewrite <- (firstn_skipn n l). apply in_or_app. now left.
Qed.

Lemma isin_iff (x : option string) (values : list string) :
  isin x values = true <-> exists k, x = Some k /\ In k values.
Proof.
  destruct x as [c|]; simpl.
  - rewrite existsb_exists. split.
    + intros [k [Hk E]]. apply String.eqb_eq in E. subst k. eauto.
    + intros [k [E Hk]]. injection E as ->. exists k. split; [exact Hk|].
      apply String.eqb_refl.
  - split; [discriminate | intros [k [E _]]; discriminate].
Qed.

(** X11: over any [argsort], the scatter works on at most 20 cities, each
    one once and each a city of the frame; its rows are the rows of the
    frame whose city is one of them, which is every row with a city when the
    frame has at most 20 cities; and the cities of the top-10 chart are the
    first ten of them. *)
Theorem top_data_rows (argsort : list Q -> list nat) (data : DataFrame) :
  (let non_nans := rev (Series.dropna (map snd (GroupAggregate data))) in
   Permutation (argsort non_nans) (seq 0 (length non_nans))) ->
  (length (top_cities argsort data) <= 20)%nat /\
  NoDup (top_cities argsort data) /\
  (forall k, In k (top_cities argsort data) -> In (Some k) (map city data)) /\
  (forall r, In r (top_data argsort data) <->
             In r data /\ exists k, city r = Some k /\ In k (top_cities argsort data)) /\
  ((length (GroupAggregate data) <= 20)%nat ->
   top_data argsort data = filter (fun r => Series.notna (city r)) data) /\
  map fst (top10 argsort data) = firstn 10 (top_cities argsort data).
Proof.
  intros HP.
  pose proof (sort_values_perm argsort (GroupAggregate data) HP) as P.
  assert (PK : Permutation (map fst (sort_values argsort (GroupAggregate data)))
                           (group_keys data)).
  { rewrite <- GroupAggregate_keys. now apply Permutation_map. }
  assert (TC : top_cities argsort data
               = firstn 20 (map fst (sort_values argsort (GroupAggregate data)))).
  { unfold top_cities. rewrite head_nonneg by lia. symmetry. apply firstn_map. }
  split; [rewrite TC; apply firstn_le_length|].
  split.
  { rewrite TC. apply NoDup_firstn.
    apply (Permutation_NoDup (Permutation_sym PK)).
    apply StronglySorted_lt_NoDup, group_keys_sorted. }
  split.
  { intros k Hk. rewrite TC in Hk. apply firstn_incl in Hk.
    apply (Permutation_in _ PK) in Hk. now apply group_keys_In. }
  split.
  { intros r. unfold top_data. rewrite filter_In, isin_iff. tauto. }
  split.
  - intros L20. unfold top_data. apply filter_ext_in. intros r Hr.
    rewrite TC, firstn_all2
      by (rewrite length_map, (Permutation_length P); exact L20).
    destruct (city r) as [c|] eqn:Ec; simpl; [|reflexivity].
    apply existsb_exists. exists c. split; [|apply String.eqb_refl].
    apply (Permutation_in _ (Permutation_sym PK)). apply group_keys_In.
    rewrite <- Ec. now apply in_map.
  - rewrite TC, firstn_firstn. unfold top10, TopN.
    rewrite head_nonneg by lia. symmetry. apply firstn_map.
Qed.

Lemma top_data_rows_witness :
  (length (top_cities insertion_argsort frame_cities) <= 20)%nat /\
  NoDup (top_cities insertion_argsort frame_cities) /\
  (forall k, In k (top_cities insertion_argsort frame_cities) ->
             In (Some k) (map city frame_cities)) /\
  (forall r, In r (top_data insertion_argsort frame_cities) <->
             In r frame_cities /\
             exists k, city r = Some k /\ In k (top_cities insertion_argsort frame_cities)) /\
  ((length (GroupAggregate frame_cities) <= 20)%nat ->
   top_data insertion_argsort frame_cities
   = filter (fun r => Series.notna (city r)) frame_cities) /\
  map fst (top10 insertion_argsort frame_cities)
  = firstn 10 (top_cities insertion_argsort frame_cities).
Proof.
  apply (top_data_rows insertion_argsort frame_cities).
  apply insertion_argsort_stable.
Defined.

Lemma opt_string_eqb_iff (x y : option string) :
  opt_eqb String.eqb x y = true <-> x = y.
Proof.
  split; [apply opt_string_eqb_eq|]. intros <-. apply opt_eqb_refl, String.eqb_refl.
Qed.

Lemma eq_label_iff (x y : option string) :
  eq_label x y = true <-> x = y /\ y <> None.
Proof.
  destruct x as [a|], y as [b|]; simpl.
  - rewrite String.eqb_eq. split; [intros ->; split; [reflexivity | discriminate]|].
    intros [E _]. congruence.
  - split; [discriminate | intros [E _]; discriminate].
  - split; [discriminate | intros [E _]; discriminate].
  - split; [discriminate | intros [_ N]; congruence].
Qed.

(** The rows of the series, for any frame the loop runs on. *)
Lemma series_rows (top : DataFrame) :
  let series :=
    map (fun pollutant =>
           (pollutant, filter (fun r => eq_label (pollutant_id r) pollutant) top))
        (unique_by (opt_eqb String.eqb) (map pollutant_id top)) in
  NoDup (map fst series) /\
  (forall p rows r, In (p, rows) series ->
     (In r rows <-> In r top /\ pollutant_id r = p /\ p <> None)) /\
  (forall r k, In r top -> pollutant_id r = Some k ->
     exists rows, In (Some k, rows) series /\ In r rows) /\
  (list_sum (map (fun s => length (snd s)) series) + missing_in pollutant_id top
   = length top)%nat.
Proof.
  intros series. unfold series.
  set (labels := unique_by (opt_eqb String.eqb) (map pollutant_id top)).
  assert (LI : forall p, In p labels <-> In p (map pollutant_id top))
    by (intros p; apply (unique_by_In _ opt_string_eqb_iff)).
  assert (LN : NoDup labels) by apply (unique_by_NoDup _ opt_string_eqb_iff).
  split; [|split; [|split]].
  - rewrite map_map. simpl. now rewrite map_id.
  - intros p rows r Hin. apply in_map_iff in Hin. destruct Hin as [p' [E _]].
    injection E as -> <-. rewrite filter_In, eq_label_iff. tauto.
  - intros r k Hr Ek.
    exists (filter (fun r => eq_label (pollutant_id r) (Some k)) top). split.
    + apply in_map_iff. exists (Some k). split; [reflexivity|].
      apply LI. rewrite <- Ek. now apply in_map.
    + apply filter_In. split; [exact Hr|]. rewrite Ek. simpl. apply String.eqb_refl.
  - rewrite map_map. simpl.
    change (list_sum
              (map (fun p => length (filter (fun r => eq_label (pollutant_id r) p) top))
                   labels)
            + missing_in pollutant_id top = length top)%nat.
    rewrite (count_swap (fun r p => eq_label (pollutant_id r) p) top labels).
    rewrite (list_sum_ones _ (fun r => Series.notna (pollutant_id r))).
    + unfold missing_in, Series.notna. clear.
      induction top as [|r t IH]; simpl; [reflexivity|].
      destruct (Series.isna (pollutant_id r)); simpl; lia.
    + intros r Hr. destruct (pollutant_id r) as [k|] eqn:Ek; simpl.
      * rewrite (filter_ext (fun p => eq_label (Some k) p)
                            (opt_eqb String.eqb (Some k)))
          by (intros [b|]; reflexivity).
        apply (filter_eqb_once _ opt_string_eqb_iff); [exact LN|].
        apply LI. rewrite <- Ek. now apply in_map.
      * generalize labels. intros L. induction L; simpl; auto.
Qed.

(** X12: the series of the scatter split the rows it works on by pollutant
    type: a row with a type is in the series of its type and in no other
    one, a row without a type is in none, no label comes twice, and the
    series together hold the rows that have a type. *)
Theorem scatter_series_partition (argsort : list Q -> list nat) (data : DataFrame) :
  NoDup (map fst (scatter_series argsort data)) /\
  (forall p rows r, In (p, rows) (scatter_series argsort data) ->
     (In r rows <-> In r (top_data argsort data) /\ pollutant_id r = p /\ p <> None)) /\
  (forall r k, In r (top_data argsort data) -> pollutant_id r = Some k ->
     exists rows, In (Some k, rows) (scatter_series argsort data) /\ In r rows) /\
  (list_sum (map (fun s => length (snd s)) (scatter_series argsort data))
   + missing_in pollutant_id (top_data argsort data)
   = length (top_data argsort data))%nat.
Proof. apply (series_rows (top_data argsort data)). Qed.

(** The scatter of [frame_types]: the row without a type is in the series
    of the missing label, which is empty. *)
Example scatter_series_frame_types :
  map (fun s => (fst s, length (snd s))) (scatter_series insertion_argsort frame_types)
  = [ (Some "PM10"%string, 3%nat); (Some "NO2"%string, 1%nat);
      (None, 0%nat); (Some "SO2"%string, 1%nat) ].
Proof. vm_compute. reflexivity. Qed.

(** ** Constant columns *)

Lemma filter_all {A} (f : A -> bool) (l : list A) :
  (forall x, In x l -> f x = true) -> filter f l = l.
Proof.
  induction l as [|a t IH]; intros H; simpl; [reflexivity|].
  rewrite (H a (or_introl eq_refl)). f_equal. apply IH. intros x Hx. apply H. now right.
Qed.

Lemma filter_none {A} (f : A -> bool) (l : list A) :
  (forall x, In x l -> f x = false) -> filter f l = [].
Proof.
  induction l as [|a t IH]; intros H; simpl; [reflexivity|].
  rewrite (H a (or_introl eq_refl)). apply IH. intros x Hx. apply H. now right.
Qed.

(** X18: on a frame with rows, no missing [pollutant_avg] and the same
    value in every row, there is no outlier and every row is a clean row. *)
Theorem constant_column_no_outliers (data : DataFrame) :
  data <> [] -> no_missing Cavg data -> constant (column Cavg data) ->
  outliers data = [] /\ clean_data data = data.
Proof.
  intros Hne Hna Hc.
  destruct (bounds_exist data Hne Hna) as [q1 [q3 [E1 [E3 [L1 L3]]]]].
  destruct (bounds_formula data q1 q3 E1 E3) as [El Eu].
  assert (Hv : has_value (column Cavg data)).
  { destruct data as [|r t]; [congruence|].
    pose proof (Hna r (or_introl eq_refl)) as N. simpl in N.
    destruct (pollutant_avg r) as [x|] eqn:Ex; [|congruence].
    exists x. left. exact Ex. }
  assert (K : forall p q x, (0 <= p <= 100)%Z ->
                q == linear_percentile_spec
                       (Series.sort (Series.dropna (column Cavg data))) p ->
                In (Some x) (column Cavg data) -> q == x).
  { intros p q x Hp Eq Hx.
    destruct (linear_percentile_within (column Cavg data) p Hv Hp)
      as [a [b [Ha [Hb [A B]]]]].
    rewrite <- Eq in A, B.
    pose proof (Hc a x Ha Hx). pose proof (Hc b x Hb Hx). lra. }
  assert (R : forall r, In r data ->
                exists x, pollutant_avg r = Some x /\ q1 == x /\ q3 == x).
  { intros r Hr. specialize (Hna r Hr). simpl in Hna.
    destruct (pollutant_avg r) as [x|] eqn:Ex; [|congruence].
    assert (Hx : In (Some x) (column Cavg data)).
    { unfold column. apply in_map_iff. exists r. auto. }
    exists x. split; [reflexivity|]. split.
    - apply (K 25%Z); [lia | exact L1 | exact Hx].
    - apply (K 75%Z); [lia | exact L3 | exact Hx]. }
  unfold outliers, clean_data. rewrite El, Eu. split.
  - apply filter_none. intros r Hr. destruct (R r Hr) as [x [Ex [A B]]].
    rewrite Ex. simpl. apply orb_false_iff. unfold Qltb.
    rewrite !negb_false_iff, !Qle_bool_iff. split; lra.
  - apply filter_all. intros r Hr. destruct (R r Hr) as [x [Ex [A B]]].
    rewrite Ex. simpl. apply andb_true_iff.
    rewrite !Qle_bool_iff. split; lra.
Qed.

Lemma constant_column_no_outliers_witness :
  frame_constant <> [] /\ no_missing Cavg frame_constant /\
  constant (column Cavg frame_constant) /\
  outliers frame_constant = [] /\ clean_data frame_constant = frame_constant.
Proof.
  assert (H1 : frame_constant <> []) by discriminate.
  assert (H2 : no_missing Cavg frame_constant).
  { intros r Hr. simpl in Hr.
    repeat (destruct Hr as [<-|Hr]; [discriminate|]). contradiction. }
  split; [exact H1|]. split; [exact H2|]. split; [exact frame_constant_constant|].
  exact (constant_column_no_outliers frame_constant H1 H2 frame_constant_constant).
Defined.

(** * Fill with the mode, duplicates and the ranking *)

(** ** The mode *)

Lemma count_occurrences (v : Q) (s : list (option Q)) :
  Series.count v (Series.dropna s) = occurrences v s.
Proof.
  unfold Series.count. induction s as [|[x|] t IH]; simpl; [reflexivity | | exact IH].
  destruct (Qeq_dec x v) as [E|N].
  - assert (B : Qeq_bool v x = true) by (apply Qeq_bool_iff; now symmetry).
    rewrite B. simpl. now rewrite IH.
  - destruct (Qeq_bool v x) eqn:B; [|exact IH].
    apply Qeq_bool_iff in B. exfalso. apply N. now symmetry.
Qed.

Lemma first_mode_most_frequent (s : list (option Q)) (m : Q) :
  first_mode (Series.dropna s) m -> most_frequent_least s m.
Proof.
  intros [I [F T]]. split; [now apply dropna_In|]. split.
  - intros v Hv. rewrite <- !count_occurrences. apply F. now apply dropna_In.
  - intros v Hv E. rewrite <- !count_occurrences in E. apply T; [|exact E].
    now apply dropna_In.
Qed.

(** C4: with the mode strategy [Clean] returns a frame exactly when each
    pollutant column holds a value, and the frame it returns keeps every
    present pollutant value and has in each missing cell the value that
    occurs in most cells of its column, the smallest one when several
    values occur as often. *)
Theorem clean_mode_fills (data : DataFrame) :
  ((forall c, has_value (column c data)) <-> exists d', Clean FillMode data = Ok d') /\
  (forall d', Clean FillMode data = Ok d' ->
     exists stat : num_col -> Q,
       d' = map (fill_row (fun c => Some (stat c))) data /\
       (forall c, most_frequent_least (column c data) (stat c)) /\
       (forall c r, get c (fill_row (fun c => Some (stat c)) r)
                    = match get c r with
                      | Some v => Some v
                      | None => Some (stat c)
                      end)).
Proof.
  assert (T : forall d', Clean FillMode data = Ok d' ->
                         forall c, has_value (column c data)).
  { intros d' E c. destruct (has_value_dec (column c data)) as [H|H]; [exact H|].
    rewrite (Clean_mode_raise data c H) in E. discriminate. }
  split.
  - split.
    + intros Hv. destruct (stat_of_modes data Hv) as [stat [Hs _]].
      eexists. apply (Clean_mode_ok data stat Hs).
    + intros [d' E]. exact (T d' E).
  - intros d' E. destruct (stat_of_modes data (T d' E)) as [stat [Hs Hf]].
    exists stat. rewrite (Clean_mode_ok data stat Hs) in E.
    split; [congruence|]. split.
    + intros c. apply first_mode_most_frequent, Hf.
    + intros c r. rewrite get_fill_row. now destruct (get c r).
Qed.

Lemma frame_modes_has_values : forall c, has_value (column c frame_modes).
Proof.
  intros c. destruct c; [exists 5 | exists 2 | exists 3]; simpl; auto.
Defined.

Lemma clean_mode_fills_witness :
  (forall c, has_value (column c frame_modes)) /\
  exists d',
    Clean FillMode frame_modes = Ok d' /\
    exists stat : num_col -> Q,
      d' = map (fill_row (fun c => Some (stat c))) frame_modes /\
      (forall c, most_frequent_least (column c frame_modes) (stat c)) /\
      (forall c r, get c (fill_row (fun c => Some (stat c)) r)
                   = match get c r with
                     | Some v => Some v
                     | None => Some (stat c)
                     end).
Proof.
  split; [exact frame_modes_has_values|].
  destruct (proj1 (proj1 (clean_mode_fills frame_modes)) frame_modes_has_values)
    as [d' E].
  exists d'. split; [exact E|].
  exact (proj2 (clean_mode_fills frame_modes) d' E).
Defined.

(** On [frame_modes] the fill is the most frequent value, not the smallest
    one: 5, 2 and 9. *)
Example clean_mode_frame_modes :
  Clean FillMode frame_modes =
  Ok [ mkRow (Some "Delhi"%string) PM10 (Some 5) (Some 2) (Some 9) [];
       mkRow (Some "Pune"%string) PM10 (Some 5) (Some 2) (Some 3) [];
       mkRow (Some "Agra"%string) PM10 (Some 1) (Some 2) (Some 9) [];
       mkRow (Some "Kochi"%string) PM10 (Some 5) (Some 7) (Some 9) [] ].
Proof. vm_compute. reflexivity. Qed.

(** ** Duplicates *)

Lemma opt_eqb_same_cell {A} (eqb : A -> A -> bool) (R : A -> A -> Prop) :
  (forall a b, eqb a b = true <-> R a b) ->
  forall x y, opt_eqb eqb x y = true <-> same_cell R x y.
Proof.
  intros H [a|] [b|]; simpl; [apply H | | |]; split; try discriminate; tauto.
Qed.

Lemma value_eqb_same_value (v w : value) : value_eqb v w = true <-> same_value v w.
Proof.
  destruct v, w; simpl; [apply Qeq_bool_iff | | | apply String.eqb_eq];
    split; try discriminate; tauto.
Qed.

Lemma list_eqb_Forall2 {A} (eqb : A -> A -> bool) (R : A -> A -> Prop) :
  (forall a b, eqb a b = true <-> R a b) ->
  forall l1 l2, list_eqb eqb l1 l2 = true <-> Forall2 R l1 l2.
Proof.
  intros H l1. induction l1 as [|a t IH]; intros [|b u]; simpl.
  - split; [constructor | reflexivity].
  - split; [discriminate | intros F; inversion F].
  - split; [discriminate | intros F; inversion F].
  - rewrite andb_true_iff, H, IH. split.
    + intros [Hab F]. now constructor.
    + intros F. inversion F; subst. auto.
Qed.

(** The comparison of [duplicated] answers whether two rows agree in every
    column. *)
Lemma row_eqb_same_row (r1 r2 : row) : row_eqb r1 r2 = true <-> same_row r1 r2.
Proof.
  unfold row_eqb, same_row. rewrite !andb_true_iff.
  rewrite !opt_string_eqb_iff.
  rewrite !(opt_eqb_same_cell Qeq_bool Qeq Qeq_bool_iff).
  rewrite (list_eqb_Forall2 _ _ (opt_eqb_same_cell _ _ value_eqb_same_value)).
  tauto.
Qed.

Lemma combine_seq_nth {A} (l : list A) (d : A) (s : nat) :
  combine (seq s (length l)) l
  = map (fun i => (i, nth (i - s) l d)) (seq s (length l)).
Proof.
  revert s. induction l as [|a t IH]; intros s; simpl; [reflexivity|].
  rewrite Nat.sub_diag. f_equal. rewrite IH. apply map_ext_in.
  intros i Hi. apply in_seq in Hi. f_equal.
  replace (i - s)%nat with (S (i - S s)) by lia. reflexivity.
Qed.

Lemma filter_map_comm {A B} (g : A -> B) (P : B -> bool) (l : list A) :
  filter P (map g l) = map g (filter (fun x => P (g x)) l).
Proof.
  induction l as [|a t IH]; simpl; [reflexivity|].
  destruct (P (g a)); simpl; now rewrite IH.
Qed.

Lemma In_firstn_nth {A} (l : list A) (d x : A) (i : nat) :
  In x (firstn i l) <-> exists j, (j < i)%nat /\ (j < length l)%nat /\ nth j l d = x.
Proof.
  revert i. induction l as [|a t IH]; intros i.
  - rewrite firstn_nil. split; [contradiction|]. intros [j [_ [H _]]]. simpl in H. lia.
  - destruct i as [|i]; simpl.
    + split; [contradiction|]. intros [j [H _]]. lia.
    + rewrite IH. split.
      * intros [<-|[j [H1 [H2 H3]]]].
        -- exists 0%nat. repeat split; lia.
        -- exists (S j). repeat split; [lia | lia | exact H3].
      * intros [[|j] [H1 [H2 H3]]]; [now left|].
        right. exists j. repeat split; [lia | lia | exact H3].
Qed.

(** C8: [Deduplicate] keeps, in their order, exactly the rows that no
    earlier row agrees with in every column; so no two rows it returns
    agree in every column, and every row of the frame agrees in every
    column with a row it returns. *)
Theorem deduplicate_first_occurrences (data : DataFrame) :
  (exists kept : list nat,
     StronglySorted lt kept /\
     Deduplicate data = map (fun i => nth i data no_row) kept /\
     forall i, In i kept <->
               (i < length data)%nat /\
               forall j, (j < i)%nat -> ~ same_row (nth i data no_row) (nth j data no_row)) /\
  ForallOrdPairs (fun a b => ~ same_row b a) (Deduplicate data) /\
  (forall r, In r data -> exists r', In r' (Deduplicate data) /\ same_row r r').
Proof.
  split; [|split].
  - set (keep := fun i => negb (existsb (row_eqb (nth i data no_row)) (firstn i data))).
    exists (filter keep (seq 0 (length data))).
    split; [apply StronglySorted_filter, seq_sorted|]. split.
    + change (Deduplicate data) with (kept_from (rev []) data).
      rewrite (kept_from_spec data []). simpl app. simpl length.
      rewrite (combine_seq_nth data no_row 0).
      rewrite (filter_map_comm (fun i => (i, nth (i - 0) data no_row))).
      rewrite map_map. simpl.
      rewrite (filter_ext _ keep) by (intros i; unfold keep; now rewrite Nat.sub_0_r).
      apply map_ext. intros i. now rewrite Nat.sub_0_r.
    + intros i. rewrite filter_In, in_seq. unfold keep. rewrite negb_true_iff.
      split.
      * intros [Hi E]. split; [lia|]. intros j Hj S.
        apply row_eqb_same_row in S.
        assert (T : existsb (row_eqb (nth i data no_row)) (firstn i data) = true).
        { apply existsb_exists. exists (nth j data no_row). split; [|exact S].
          apply (In_firstn_nth data no_row). exists j. repeat split; lia. }
        congruence.
      * intros [Hi N]. split; [lia|].
        destruct (existsb (row_eqb (nth i data no_row)) (firstn i data)) eqn:E;
          [|reflexivity].
        apply existsb_exists in E. destruct E as [x [Hx S]].
        apply (In_firstn_nth data no_row) in Hx. destruct Hx as [j [H1 [_ <-]]].
        apply row_eqb_same_row in S. exfalso. exact (N j H1 S).
  - change (Deduplicate data) with (kept_from [] data).
    pose proof (kept_from_distinct data []) as D.
    induction D as [|a l Ha Dl IH]; constructor; [|exact IH].
    rewrite Forall_forall in *. intros b Hb S.
    apply row_eqb_same_row in S. rewrite (Ha b Hb) in S. discriminate.
  - intros r Hr. change (Deduplicate data) with (kept_from [] data).
    destruct (kept_from_covers data [] r Hr) as [S|[r' [Hr' S]]]; [discriminate|].
    exists r'. split; [exact Hr' | now apply row_eqb_same_row].
Qed.

(** Two readings of the same numbers written differently (1/2 and 2/4) are
    duplicates; a reading that differs in the further column is not. *)
Example deduplicate_by_column :
  let r (a : Q) (x : option value) :=
    mkRow (Some "Delhi"%string) PM10 (Some a) (Some 2) (Some 3) [x] in
  Deduplicate [ r (1 # 2) None; r (2 # 4) None; r (1 # 2) (Some (VStr "x"));
                r (1 # 2) None ]
  = [ r (1 # 2) None; r (1 # 2) (Some (VStr "x")) ].
Proof. reflexivity. Qed.

(** ** The ranking *)

Lemma insert_pos_late_perm (xs : list Q) (i : nat) (p : list nat) :
  Permutation (insert_pos_late xs i p) (i :: p).
Proof.
  induction p as [|j t IH]; simpl; [reflexivity|].
  destruct (Qltb (nth i xs 0) (nth j xs 0)); [reflexivity|].
  rewrite IH. apply perm_swap.
Qed.

Lemma insert_pos_late_sorted (xs : list Q) (i : nat) (p : list nat) :
  StronglySorted (fun a b => nth a xs 0 <= nth b xs 0) p ->
  StronglySorted (fun a b => nth a xs 0 <= nth b xs 0) (insert_pos_late xs i p).
Proof.
  induction 1 as [|j t St IH Hall]; simpl.
  - repeat constructor.
  - destruct (Qltb (nth i xs 0) (nth j xs 0)) eqn:E.
    + apply Qltb_lt in E. constructor; [now constructor|].
      constructor; [lra|]. rewrite Forall_forall in *.
      intros k Hk. specialize (Hall k Hk). lra.
    + assert (L : nth j xs 0 <= nth i xs 0).
      { apply Qnot_lt_le. intros C. apply Qltb_lt in C. congruence. }
      constructor; [exact IH|]. apply Forall_forall. intros k Hk.
      apply (Permutation_in _ (insert_pos_late_perm xs i t)) in Hk.
      destruct Hk as [<-|Hk]; [exact L|].
      rewrite Forall_forall in Hall. now apply Hall.
Qed.

(** The sort that puts equal values last first is a sort all the same. *)
Lemma unstable_argsort_sorts (xs : list Q) : argsort_of xs (unstable_argsort xs).
Proof.
  unfold argsort_of, unstable_argsort.
  induction (seq 0 (length xs)) as [|i L IH]; simpl.
  - split; constructor.
  - destruct IH as [P S]. split.
    + rewrite insert_pos_late_perm. now constructor.
    + now apply insert_pos_late_sorted.
Qed.

Lemma sort_values_by_value (argsort : list Q -> list nat) (v : view) :
  argsort_of (rev (Series.dropna (map snd v)))
             (argsort (rev (Series.dropna (map snd v)))) ->
  Permutation (sort_values argsort v) v /\
  StronglySorted by_value (sort_values argsort v).
Proof.
  intros H. destruct (nargsort_descending argsort (map snd v) H) as [P S].
  split; [apply sort_values_perm, H|].
  unfold sort_values.
  apply (StronglySorted_map_In (descending_at (map snd v))); [|exact S].
  intros i j _ _. unfold descending_at, by_value. rewrite !view_snd_nth.
  destruct (nth i (map snd v) None), (nth j (map snd v) None); auto.
Qed.




(** * Rounded computations *)

(** On the readings 1.8, 2.7, 2.5, 2.4 the binary64 bounds are
    1.8000000000000003 and 2.9999999999999996, and the reading 1.8 is an
    outlier. *)
Example detect_outliers_frame_decimals :
  Rounded.DetectOutliers binary64 frame_decimals
  = Ok ((Some (binary64 (18000000000000003 # 10000000000000000)),
         Some (binary64 (29999999999999996 # 10000000000000000))),
        [reading "Delhi" (Some (binary64 (18 # 10)))],
        map (fun x => reading "Delhi" (Some (binary64 x)))
            [27 # 10; 25 # 10; 24 # 10]).
Proof. vm_compute. reflexivity. Qed.

(** The binary64 mean of three readings 0.1 is 0.10000000000000002. *)
Example group_mean_frame_tenths :
  Rounded.GroupAggregate binary64 frame_tenths
  = [ ("Delhi"%string, Some (binary64 (10000000000000002 # 100000000000000000))) ].
Proof. vm_compute. reflexivity. Qed.

(** ** Outliers in rounded arithmetic *)

Lemma binary64_compat (x y : Q) : x == y -> binary64 x == binary64 y.
Proof.
  intros H. unfold binary64. rewrite (Qred_complete x y H). reflexivity.
Qed.

Lemma Qle_bool_compat (a x y : Q) : x == y -> Qle_bool a x = Qle_bool a y.
Proof.
  intros H. destruct (Qle_bool a x) eqn:E1, (Qle_bool a y) eqn:E2; try reflexivity.
  - apply Qle_bool_iff in E1. rewrite H in E1. apply Qle_bool_iff in E1. congruence.
  - apply Qle_bool_iff in E2. rewrite <- H in E2. apply Qle_bool_iff in E2. congruence.
Qed.

Lemma dropna_all_present (s : list (option Q)) :
  ~ In None s -> map Some (Series.dropna s) = s.
Proof.
  induction s as [|[v|] t IH]; simpl; intros H.
  - reflexivity.
  - f_equal. apply IH. tauto.
  - exfalso. auto.
Qed.

Section RoundedOutliers.
Variable rnd : Q -> Q.
Hypothesis rnd_compat : forall x y, x == y -> rnd x == rnd y.

Lemma lerp_interpolated (a b t f : Q) :
  t == f ->
  Rounded.lerp rnd a b t
  == (if Qle_bool (1 # 2) f
      then rnd (b - rnd (rnd (b - a) * rnd (1 - f)))
      else rnd (a + rnd (rnd (b - a) * f))).
Proof.
  intros H. unfold Rounded.lerp, Rounded.sub, Rounded.add, Rounded.mul.
  rewrite (Qle_bool_compat (1 # 2) t f H).
  destruct (Qle_bool (1 # 2) f).
  - apply rnd_compat.
    assert (E1 : rnd (1 - t) == rnd (1 - f)) by (apply rnd_compat; rewrite H; reflexivity).
    assert (E2 : rnd (rnd (b - a) * rnd (1 - t)) == rnd (rnd (b - a) * rnd (1 - f)))
      by (apply rnd_compat; rewrite E1; reflexivity).
    rewrite E2. reflexivity.
  - apply rnd_compat.
    assert (E2 : rnd (rnd (b - a) * t) == rnd (rnd (b - a) * f))
      by (apply rnd_compat; rewrite H; reflexivity).
    rewrite E2. reflexivity.
Qed.

(** The percentile of a column without a missing value. *)
Lemma percentile_present (s : list (option Q)) (p : Z) :
  s <> [] -> ~ In None s ->
  exists v, Rounded.percentile rnd s p = Ok (Some v) /\
            v == interpolated rnd (Series.sort (Series.dropna s)) p.
Proof.
  intros Hne Hn. unfold Rounded.percentile.
  destruct s as [|c t]; [congruence|].
  rewrite (proj2 (existsb_isna_false (c :: t)) Hn).
  eexists. split; [reflexivity|].
  set (arr := Series.sort (Series.dropna (c :: t))).
  destruct (virtual_index_floor (Z.of_nat (length arr)) p) as [F G].
  cbv zeta in F, G. unfold interpolated. cbv zeta.
  rewrite F. apply lerp_interpolated. rewrite <- F. exact G.
Qed.

Lemma percentile_missing (s : list (option Q)) (p : Z) :
  In None s -> Rounded.percentile rnd s p = Ok None.
Proof.
  intros H. unfold Rounded.percentile. destruct s as [|c t]; [contradiction|].
  destruct (existsb Series.isna (c :: t)) eqn:E; [reflexivity|].
  apply existsb_isna_false in E. contradiction.
Qed.

Lemma iqr_bounds_compat (arr : list Q) (q1 q3 : Q) :
  q1 == interpolated rnd arr 25 -> q3 == interpolated rnd arr 75 ->
  rnd (q1 - rnd ((3 # 2) * rnd (q3 - q1))) == fst (iqr_bounds rnd arr) /\
  rnd (q3 + rnd ((3 # 2) * rnd (q3 - q1))) == snd (iqr_bounds rnd arr).
Proof.
  intros E1 E3. unfold iqr_bounds. cbv zeta. cbn [fst snd].
  set (i1 := interpolated rnd arr 25) in *.
  set (i3 := interpolated rnd arr 75) in *.
  assert (A : rnd (q3 - q1) == rnd (i3 - i1))
    by (apply rnd_compat; rewrite E1, E3; reflexivity).
  assert (B : rnd ((3 # 2) * rnd (q3 - q1)) == rnd ((3 # 2) * rnd (i3 - i1)))
    by (apply rnd_compat; rewrite A; reflexivity).
  split; apply rnd_compat; rewrite B; [rewrite E1 | rewrite E3]; reflexivity.
Qed.

End RoundedOutliers.

Lemma interpolated_exact (arr : list Q) (p : Z) :
  interpolated (fun x => x) arr p == linear_percentile_spec arr p.
Proof.
  unfold interpolated, linear_percentile_spec. cbv zeta.
  destruct (Qle_bool _ _); ring.
Qed.

Lemma outlier_test (x : option Q) (l h : Q) :
  cmp2 Qltb x (Some l) || cmp2 Qltb (Some h) x = true <->
  exists v l' h', x = Some v /\ Some l = Some l' /\ Some h = Some h' /\
                  (v < l' \/ h' < v).
Proof.
  rewrite orb_true_iff. destruct x as [v|]; simpl.
  - rewrite !Qltb_lt. split.
    + intros H. exists v, l, h. auto.
    + intros [v' [l' [h' [Ev [El [Eh H]]]]]].
      apply Some_inj in Ev. apply Some_inj in El. apply Some_inj in Eh.
      subst. exact H.
  - split; [intros [H|H]; discriminate|].
    intros [v [l' [h' [Ev _]]]]. discriminate.
Qed.

Lemma clean_test (x : option Q) (l h : Q) :
  cmp2 Qle_bool (Some l) x && cmp2 Qle_bool x (Some h) = true <->
  exists v l' h', x = Some v /\ Some l = Some l' /\ Some h = Some h' /\
                  l' <= v /\ v <= h'.
Proof.
  rewrite andb_true_iff. destruct x as [v|]; simpl.
  - rewrite !Qle_bool_iff. split.
    + intros H. exists v, l, h. tauto.
    + intros [v' [l' [h' [Ev [El [Eh H]]]]]].
      apply Some_inj in Ev. apply Some_inj in El. apply Some_inj in Eh.
      subst. exact H.
  - split; [intros [H _]; discriminate|].
    intros [v [l' [h' [Ev _]]]]. discriminate.
Qed.

Lemma cmp2_none_r (f : Q -> Q -> bool) (x : option Q) : cmp2 f x None = false.
Proof. now destruct x. Qed.

(** C6 (as stated).  In binary64 the readings 1.8, 2.7, 2.5 and 2.4 have
    the lower bound 1.8000000000000003, and the reading 1.8 is an outlier;
    it is not below the bound [Q1 - 1.5 * (Q3 - Q1)] of exact arithmetic. *)
Theorem classifies_by_exact_bounds_fails :
  ~ classifies_by_exact_bounds binary64 frame_decimals.
Proof.
  intros H.
  specialize (H _ _ _
                (map binary64 [18 # 10; 24 # 10; 25 # 10; 27 # 10])
                detect_outliers_frame_decimals).
  assert (P : Permutation
                (map Some (map binary64 [18 # 10; 24 # 10; 25 # 10; 27 # 10]))
                (column Cavg frame_decimals)).
  { cbn [map frame_decimals column get pollutant_avg reading].
    apply perm_skip. apply Permutation_sym. apply (Permutation_rev [_; _; _]). }
  assert (S : StronglySorted Qle (map binary64 [18 # 10; 24 # 10; 25 # 10; 27 # 10])).
  { repeat constructor; vm_compute; discriminate. }
  specialize (H P S (reading "Delhi" (Some (binary64 (18 # 10)))) (binary64 (18 # 10))).
  destruct (proj1 (H (or_introl eq_refl) eq_refl) (or_introl eq_refl)) as [L|L];
    vm_compute in L; discriminate.
Qed.

(** C6 (amended).  On an empty frame [np.percentile] raises [IndexError].
    On any other frame the tab computes, in rounded arithmetic, [Q1] and
    [Q3] of [pollutant_avg] by interpolation between the neighbours of the
    positions [(n - 1) * 25 / 100] and [(n - 1) * 75 / 100] of the ascending
    values, the bounds [lower = Q1 - 1.5 * (Q3 - Q1)] and
    [upper = Q3 + 1.5 * (Q3 - Q1)], the outliers as the rows with a value
    strictly below [lower] or strictly above [upper], and the clean rows as
    those with [lower <= value <= upper], both in the order of the frame;
    with a missing value in the column both bounds are NaN.  Without
    rounding the bounds are those of exact arithmetic. *)
Theorem detect_outliers_iqr (rnd : Q -> Q) (data : DataFrame) :
  (forall x y, x == y -> rnd x == rnd y) ->
  (data = [] -> Rounded.DetectOutliers rnd data = Raise IndexError) /\
  (data <> [] ->
   exists (lo hi : option Q) (is_outlier is_clean : row -> bool),
     Rounded.DetectOutliers rnd data
     = Ok ((lo, hi), filter is_outlier data, filter is_clean data) /\
     (no_missing Cavg data ->
      exists arr l h,
        Permutation (map Some arr) (column Cavg data) /\
        StronglySorted Qle arr /\
        lo = Some l /\ hi = Some h /\
        l == fst (iqr_bounds rnd arr) /\ h == snd (iqr_bounds rnd arr)) /\
     (~ no_missing Cavg data -> lo = None /\ hi = None) /\
     (forall r, is_outlier r = true <->
        exists x l h, pollutant_avg r = Some x /\ lo = Some l /\ hi = Some h /\
                      (x < l \/ h < x)) /\
     (forall r, is_clean r = true <->
        exists x l h, pollutant_avg r = Some x /\ lo = Some l /\ hi = Some h /\
                      l <= x /\ x <= h)) /\
  (forall arr, fst (iqr_bounds (fun x => x) arr) == fst (exact_bounds arr) /\
               snd (iqr_bounds (fun x => x) arr) == snd (exact_bounds arr)).
Proof.
  intros Hc. split; [|split].
  - intros ->. reflexivity.
  - intros Hne.
    assert (Cne : column Cavg data <> []).
    { destruct data; [congruence|discriminate]. }
    unfold Rounded.DetectOutliers.
    destruct (existsb Series.isna (column Cavg data)) eqn:E.
    + assert (Hin : In None (column Cavg data)).
      { apply existsb_exists in E. destruct E as [[v|] [Hin Hv]]; [discriminate|exact Hin]. }
      rewrite !(percentile_missing rnd _ _ Hin). cbn [bind lift2].
      do 4 eexists. split; [reflexivity|]. split; [|split; [|split]].
      * intros Hn. apply no_missing_column in Hn. contradiction.
      * auto.
      * intros r. rewrite !cmp2_none_r. simpl. split; [discriminate|].
        intros [x [l [h [_ [A _]]]]]. discriminate.
      * intros r. rewrite cmp2_none_r, andb_false_r. split; [discriminate|].
        intros [x [l [h [_ [A _]]]]]. discriminate.
    + apply existsb_isna_false in E.
      destruct (percentile_present rnd Hc (column Cavg data) 25 Cne E) as [q1 [E1 I1]].
      destruct (percentile_present rnd Hc (column Cavg data) 75 Cne E) as [q3 [E3 I3]].
      rewrite E1, E3. cbn [bind lift2].
      do 4 eexists. split; [reflexivity|]. split; [|split; [|split]].
      * intros _. exists (Series.sort (Series.dropna (column Cavg data))).
        do 2 eexists.
        split.
        { rewrite sort_perm, dropna_all_present by exact E. reflexivity. }
        split; [apply sort_sorted|].
        split; [reflexivity|]. split; [reflexivity|].
        apply (iqr_bounds_compat rnd Hc _ q1 q3 I1 I3).
      * intros Hn. exfalso. apply Hn. apply no_missing_column. exact E.
      * intros r. apply outlier_test.
      * intros r. apply clean_test.
  - intros arr. unfold iqr_bounds, exact_bounds. cbv zeta. cbn [fst snd].
    rewrite !interpolated_exact. split; ring.
Qed.

Lemma detect_outliers_iqr_witness :
  (forall x y, x == y -> binary64 x == binary64 y) /\
  frame_decimals <> [] /\
  exists (lo hi : option Q) (is_outlier is_clean : row -> bool),
    Rounded.DetectOutliers binary64 frame_decimals
    = Ok ((lo, hi), filter is_outlier frame_decimals, filter is_clean frame_decimals) /\
    (no_missing Cavg frame_decimals ->
     exists arr l h,
       Permutation (map Some arr) (column Cavg frame_decimals) /\
       StronglySorted Qle arr /\
       lo = Some l /\ hi = Some h /\
       l == fst (iqr_bounds binary64 arr) /\ h == snd (iqr_bounds binary64 arr)) /\
    (~ no_missing Cavg frame_decimals -> lo = None /\ hi = None) /\
    (forall r, is_outlier r = true <->
       exists x l h, pollutant_avg r = Some x /\ lo = Some l /\ hi = Some h /\
                     (x < l \/ h < x)) /\
    (forall r, is_clean r = true <->
       exists x l h, pollutant_avg r = Some x /\ lo = Some l /\ hi = Some h /\
                     l <= x /\ x <= h).
Proof.
  split; [exact binary64_compat|]. split; [discriminate|].
  apply (proj1 (proj2 (detect_outliers_iqr binary64 frame_decimals binary64_compat))).
  discriminate.
Defined.

(** ** Group means in rounded arithmetic *)

Section RoundedGroups.
Variable rnd : Q -> Q.

Lemma group_update_keys (k : string) (val : Q) (st : list (string * Rounded.acc)) :
  map fst (Rounded.group_update rnd k val st) = map fst st.
Proof.
  unfold Rounded.group_update. rewrite map_map. apply map_ext.
  intros p. now destruct (String.eqb (fst p) k).
Qed.

Lemma group_pass_keys (data : DataFrame) (st : list (string * Rounded.acc)) :
  map fst (fold_left (Rounded.group_step rnd) data st) = map fst st.
Proof.
  revert st. induction data as [|r t IH]; intros st; [reflexivity|].
  cbn [fold_left]. rewrite IH. unfold Rounded.group_step.
  destruct (city r), (pollutant_avg r); try reflexivity.
  apply group_update_keys.
Qed.

Lemma GroupAggregate_rounded_keys (data : DataFrame) :
  map fst (Rounded.GroupAggregate rnd data) = group_keys data.
Proof.
  unfold Rounded.GroupAggregate, Rounded.group_pass.
  rewrite map_map. cbn [fst].
  rewrite group_pass_keys, map_map. apply map_id.
Qed.

(** The state of a group after the pass: its values have entered it one
    by one, in the order of the rows. *)
Lemma group_pass_state (data : DataFrame) (st : list (string * Rounded.acc))
      (k : string) (a : Rounded.acc) :
  In (k, a) (fold_left (Rounded.group_step rnd) data st) ->
  exists a0, In (k, a0) st /\
             a = fold_left (Rounded.kahan_step rnd) (group_values k data) a0.
Proof.
  revert st. induction data as [|r t IH]; intros st H.
  - exists a. split; [exact H|reflexivity].
  - cbn [fold_left] in H. destruct (IH _ H) as [a1 [H1 E1]].
    assert (G : forall a0,
               fold_left (Rounded.kahan_step rnd) (group_values k (r :: t)) a0
               = fold_left (Rounded.kahan_step rnd) (group_values k t)
                   (match city r, pollutant_avg r with
                    | Some c, Some x =>
                        if String.eqb c k then Rounded.kahan_step rnd a0 x else a0
                    | _, _ => a0
                    end)).
    { intros a0. unfold group_values. cbn [flat_map]. rewrite fold_left_app.
      destruct (city r) as [c|]; [|reflexivity].
      destruct (pollutant_avg r) as [x|]; [|reflexivity].
      now destruct (String.eqb c k). }
    unfold Rounded.group_step in H1.
    destruct (city r) as [c|];
      [|exists a1; split; [exact H1|rewrite G; exact E1]].
    destruct (pollutant_avg r) as [x|];
      [|exists a1; split; [exact H1|rewrite G; exact E1]].
    unfold Rounded.group_update in H1. apply in_map_iff in H1.
    destruct H1 as [[k0 a0] [E0 H0]]. cbn [fst snd] in E0.
    destruct (String.eqb k0 c) eqn:Ek.
    + apply String.eqb_eq in Ek. subst k0. inversion E0; subst.
      exists a0. split; [exact H0|]. rewrite G, String.eqb_refl. reflexivity.
    + inversion E0; subst. exists a1. split; [exact H0|].
      rewrite G, String.eqb_sym, Ek. reflexivity.
Qed.

Lemma kahan_fold (xs : list Q) (a : Rounded.acc) :
  let sc :=
    fold_left
      (fun sc x =>
         let y := rnd (x - snd sc) in
         let t := rnd (fst sc + y) in
         (t, rnd (rnd (t - fst sc) - y)))
      xs (Rounded.sumx a, Rounded.compensation a) in
  fold_left (Rounded.kahan_step rnd) xs a
  = Rounded.mkAcc (Rounded.nobs a + length xs) (fst sc) (snd sc).
Proof.
  revert a. induction xs as [|x t IH]; intros a; cbn [fold_left length].
  - rewrite Nat.add_0_r. now destruct a.
  - rewrite IH. cbn [Rounded.kahan_step Rounded.nobs Rounded.sumx Rounded.compensation].
    unfold Rounded.kahan_step, Rounded.add, Rounded.sub.
    cbn [Rounded.nobs Rounded.sumx Rounded.compensation fst snd].
    f_equal. lia.
Qed.

Lemma GroupAggregate_rounded_value (data : DataFrame) (k : string) (m : option Q) :
  In (k, m) (Rounded.GroupAggregate rnd data) ->
  match group_values k data with
  | [] => m = None
  | xs => m = Some (rnd (fst (compensated_sum rnd xs) / inject_Z (Z.of_nat (length xs))))
  end.
Proof.
  unfold Rounded.GroupAggregate, Rounded.group_pass. intros H.
  apply in_map_iff in H. destruct H as [[k0 a] [E H]]. cbn [fst snd] in E.
  inversion E; subst k0 m. clear E.
  apply group_pass_state in H. destruct H as [a0 [H0 ->]].
  apply in_map_iff in H0. destruct H0 as [k1 [E1 _]]. inversion E1; subst.
  rewrite kahan_fold. unfold Rounded.finish.
  cbn [Rounded.nobs Rounded.sumx Rounded.compensation Rounded.acc0 Nat.add].
  unfold compensated_sum, Rounded.div.
  destruct (group_values k data) as [|x t]; reflexivity.
Qed.

End RoundedGroups.

(** Without rounding the compensation stays zero and the sum is the sum. *)
Lemma compensated_sum_exact (xs : list Q) (s c : Q) :
  c == 0 ->
  let sc :=
    fold_left
      (fun sc x =>
         let y := x - snd sc in
         let t := fst sc + y in
         (t, t - fst sc - y))
      xs (s, c) in
  fst sc == s + fold_right Qplus 0 xs.
Proof.
  revert s c. induction xs as [|x t IH]; intros s c Hc; cbn [fold_left fold_right].
  - cbn [fst]. ring.
  - cbn zeta. cbn [fst snd]. cbv zeta in IH. rewrite IH; [rewrite Hc; ring | ring].
Qed.

(** C9 (as stated).  The binary64 mean of three readings 0.1 is
    0.10000000000000002, not their arithmetic mean. *)
Theorem group_value_is_mean_fails : ~ group_value_is_mean binary64 frame_tenths.
Proof.
  intros H.
  specialize (H "Delhi"%string _ (or_introl eq_refl)).
  cbn [group_values frame_tenths flat_map city pollutant_avg reading] in H.
  rewrite String.eqb_refl in H. cbn [app] in H.
  destruct H as [q [E H]]. apply Some_inj in E. subst q.
  vm_compute in H. discriminate.
Qed.

(** C9 (amended).  [groupby('city')['pollutant_avg'].mean()] has one entry
    for every city of the frame, the cities ascending; the entry of a city
    is computed from the values present in its rows, in the order of the
    rows: their compensated sum divided by their number, every operation
    rounded, and NaN when no row of the city has a value.  Without rounding
    it is the arithmetic mean of these values. *)
Theorem group_aggregate_mean (rnd : Q -> Q) (data : DataFrame) :
  keys_ascending (Rounded.GroupAggregate rnd data) /\
  (forall k, In k (map fst (Rounded.GroupAggregate rnd data)) <->
             exists r, In r data /\ city r = Some k) /\
  (forall k m, In (k, m) (Rounded.GroupAggregate rnd data) ->
     match group_values k data with
     | [] => m = None
     | xs => m = Some (rnd (fst (compensated_sum rnd xs)
                            / inject_Z (Z.of_nat (length xs))))
     end) /\
  (forall k m, In (k, m) (Rounded.GroupAggregate (fun x => x) data) ->
     match group_values k data with
     | [] => m = None
     | xs => exists q, m = Some q /\
                       q == fold_right Qplus 0 xs / inject_Z (Z.of_nat (length xs))
     end).
Proof.
  split; [|split; [|split]].
  - unfold keys_ascending. rewrite GroupAggregate_rounded_keys. apply group_keys_sorted.
  - intros k. rewrite GroupAggregate_rounded_keys, group_keys_In, in_map_iff.
    split; intros [r [A B]]; exists r; tauto.
  - apply GroupAggregate_rounded_value.
  - intros k m H. apply GroupAggregate_rounded_value in H.
    destruct (group_values k data) as [|x t]; [exact H|].
    eexists. split; [exact H|].
    unfold compensated_sum. 
    pose proof (compensated_sum_exact (x :: t) 0 0 ltac:(reflexivity)) as S.
    cbv zeta in S. rewrite S. field.
    change 0 with (inject_Z 0). rewrite inject_Z_injective.
    cbn [length]. lia.
Qed.
